(** * RTSP live overlay application: the web client's playback, debounce,
      validation and error-mapping logic, embedded from the TypeScript sources.

    - [JsString]     : the three [String.prototype] tests the sources call.
    - [Errors]       : [apps/web/src/lib/errors.ts].
    - [RtspInput]    : [RtspInput] of [features/rtsp/components].
    - [OverlayBox]   : [features/overlays/components/overlay-box.tsx].
    - [VideoPlayer]  : [VideoPlayer] of [features/rtsp/components].
    - [Lifecycle]    : the server-side stream manager, which is not part of
                       the client sources.
    - [OverlayControls] : [features/overlays/components/overlay-controls.tsx].
    - [IndexPage]    : the switch between form and player of
                       [routes/_index.tsx]. *)

From Stdlib Require Import Bool Arith ZArith Lia List String Ascii.
Import ListNotations.
Open Scope string_scope.
Set Warnings "-register-all".

(* ===================================================================== *)
(** ** JavaScript string tests *)
(* ===================================================================== *)

Module JsString.

(** [s.startsWith(p)].  The sources only test ASCII literals, for which the
    code units of a JS string and the characters of [string] coincide. *)
Fixpoint startsWith (s p : string) {struct p} : bool :=
  match p with
  | EmptyString => true
  | String c p' =>
      match s with
      | EmptyString => false
      | String d s' => Ascii.eqb c d && startsWith s' p'
      end
  end.

(** [s.includes(k)]: [k] occurs at some offset of [s]. *)
Fixpoint includes (s k : string) : bool :=
  startsWith s k ||
  match s with
  | EmptyString => false
  | String _ s' => includes s' k
  end.

(** [s.endsWith(p)]: [p] is what is left of [s] from some offset on. *)
Fixpoint endsWith (s p : string) : bool :=
  String.eqb s p ||
  match s with
  | EmptyString => false
  | String _ s' => endsWith s' p
  end.

Example endsWith_manifest :
  endsWith "http://localhost:5000/stream/index.m3u8" ".m3u8" = true
  /\ endsWith "http://localhost:5000/stream/index.mp4" ".m3u8" = false
  /\ endsWith "m3u8" ".m3u8" = false.
Proof. repeat split. Qed.

Lemma startsWith_spec s p :
  startsWith s p = true <-> exists r, s = p ++ r.
Proof.
  revert s; induction p as [|c p IH]; intros s; simpl.
  - split; [intros _; now exists s | intros _; reflexivity].
  - destruct s as [|d s].
    + split; [discriminate | intros [r Hr]; discriminate].
    + rewrite andb_true_iff, Ascii.eqb_eq, IH. split.
      * intros [-> [r ->]]. now exists r.
      * intros [r Hr]. injection Hr as -> ->. split; [reflexivity | now exists r].
Qed.

Lemma includes_spec s k :
  includes s k = true <-> exists a b, s = a ++ k ++ b.
Proof.
  induction s as [|d s IH].
  - simpl. rewrite orb_false_r, startsWith_spec. split.
    + intros [r Hr]. now exists "", r.
    + intros [a [b Hab]]. destruct a; simpl in Hab.
      * now exists b.
      * discriminate.
  - cbn [includes]. rewrite orb_true_iff, IH, startsWith_spec. split.
    + intros [[r Hr] | [a [b Hab]]].
      * now exists "", r.
      * exists (String d a), b. simpl. now rewrite Hab.
    + intros [a [b Hab]]. destruct a as [|e a]; simpl in Hab.
      * left. now exists b.
      * right. injection Hab as _ Hs. now exists a, b.
Qed.

Lemma endsWith_spec s p :
  endsWith s p = true <-> exists r, s = r ++ p.
Proof.
  induction s as [|d s IH].
  - cbn [endsWith]. rewrite orb_false_r, String.eqb_eq. split.
    + intros <-. now exists "".
    + intros [r Hr]. destruct r; simpl in Hr; [exact Hr | discriminate].
  - cbn [endsWith]. rewrite orb_true_iff, IH, String.eqb_eq. split.
    + intros [<- | [r ->]].
      * now exists "".
      * now exists (String d r).
    + intros [r Hr]. destruct r as [|e r]; simpl in Hr.
      * now left.
      * right. injection Hr as _ ->. now exists r.
Qed.

End JsString.

(* ===================================================================== *)
(** ** apps/web/src/lib/errors.ts *)
(* ===================================================================== *)

Module Errors.
Import JsString.

(** The argument of [getReadableMessage] has type [unknown]: any JavaScript
    value.  Values are modelled as data: primitives, arrays, and objects
    tagged with the constructor that [instanceof] inspects.  [AxiosError]
    extends [Error]; every other subclass of [Error] behaves as [ClsError]
    here.  Only the truthiness of a number is observed, so numbers are
    integers (NaN is falsy like 0). *)
Inductive Class := ClsObject | ClsError | ClsAxiosError.

Inductive JsVal :=
| JUndefined
| JNull
| JBool (b : bool)
| JNum (n : Z)
| JStr (s : string)
| JArr (items : list JsVal)
| JObj (cls : Class) (props : list (string * JsVal)).

(** How a call completes: with a value, or by throwing. *)
Inductive Completion :=
| Return (v : JsVal)
| Throw (name : string).

Definition instanceof_AxiosError (v : JsVal) : bool :=
  match v with
  | JObj ClsAxiosError _ => true
  | _ => false
  end.

Definition instanceof_Error (v : JsVal) : bool :=
  match v with
  | JObj ClsError _ | JObj ClsAxiosError _ => true
  | _ => false
  end.

Fixpoint lookup (k : string) (props : list (string * JsVal)) : option JsVal :=
  match props with
  | [] => None
  | (k', v) :: rest => if String.eqb k k' then Some v else lookup k rest
  end.

(** [o.k] on a receiver that is not null or undefined.  A missing property
    reads as [undefined], except [message], which [Error.prototype] defines
    as the empty string.  Primitives and arrays have none of the property
    names this file reads. *)
Definition get (o : JsVal) (k : string) : JsVal :=
  match o with
  | JObj cls props =>
      match lookup k props with
      | Some v => v
      | None =>
          match cls with
          | ClsObject => JUndefined
          | ClsError | ClsAxiosError =>
              if String.eqb k "message" then JStr "" else JUndefined
          end
      end
  | _ => JUndefined
  end.

(** [o?.k] *)
Definition optget (o : JsVal) (k : string) : JsVal :=
  match o with
  | JUndefined | JNull => JUndefined
  | _ => get o k
  end.

Definition truthy (v : JsVal) : bool :=
  match v with
  | JUndefined | JNull => false
  | JBool b => b
  | JNum n => negb (n =? 0)%Z
  | JStr s => negb (String.eqb s "")
  | JArr _ | JObj _ _ => true
  end.

(** [a || b] *)
Definition or_else (a b : JsVal) : JsVal := if truthy a then a else b.

(** [v === 'lit'] *)
Definition strict_eq_str (v : JsVal) (lit : string) : bool :=
  match v with
  | JStr s => String.eqb s lit
  | _ => false
  end.

(** [recv.includes(key)].  Strings and arrays have the method; on any other
    truthy value [recv.includes] is not a function and the call throws a
    [TypeError] ([None]). *)
Definition call_includes (recv : JsVal) (key : string) : option bool :=
  match recv with
  | JStr s => Some (includes s key)
  | JArr items => Some (existsb (fun x => strict_eq_str x key) items)
  | _ => None
  end.

(** [ERROR_MESSAGES], in the insertion order [Object.entries] yields. *)
Definition ERROR_MESSAGES : list (string * string) :=
  [ ("Invalid RTSP URL format",
     "The RTSP URL format is invalid. Please use rtsp://...");
    ("Failed to start stream",
     "Could not start the stream. Please verify the URL is accessible.");
    ("Network Error",
     "Unable to connect to the server. Please check your connection.");
    ("timeout of",
     "The request timed out. Please try again.");
    ("ECONNREFUSED",
     "Server is not responding. Please ensure the backend is running.") ].

Fixpoint table_get (k : string) (t : list (string * string)) : JsVal :=
  match t with
  | [] => JUndefined
  | (k', v) :: rest => if String.eqb k k' then JStr v else table_get k rest
  end.

Definition UNEXPECTED : string := "An unexpected error occurred".

(** The [for ... of Object.entries(ERROR_MESSAGES)] loop followed by
    [return backendMessage]. *)
Fixpoint scan_entries (entries : list (string * string)) (backendMessage : JsVal)
  : Completion :=
  match entries with
  | [] => Return backendMessage
  | (key, friendly) :: rest =>
      match call_includes backendMessage key with
      | None => Throw "TypeError"
      | Some true => Return (JStr friendly)
      | Some false => scan_entries rest backendMessage
      end
  end.

(** [data?.error || data?.message || data?.detail] for
    [data = error.response?.data]. *)
Definition backendMessage_of (error : JsVal) : JsVal :=
  let data := optget (get error "response") "data" in
  or_else (or_else (optget data "error") (optget data "message"))
          (optget data "detail").

Definition getReadableMessage (error : JsVal) : Completion :=
  if instanceof_AxiosError error then
    let backendMessage := backendMessage_of error in
    if truthy backendMessage then
      scan_entries ERROR_MESSAGES backendMessage
    else if strict_eq_str (get error "code") "ECONNABORTED" then
      Return (JStr "The request timed out. The stream may take a while to start.")
    else if strict_eq_str (get error "code") "ERR_NETWORK" then
      Return (table_get "Network Error" ERROR_MESSAGES)
    else
      Return (or_else (get error "message") (JStr UNEXPECTED))
  else if instanceof_Error error then
    Return (get error "message")
  else
    Return (JStr UNEXPECTED).

(** [handleApiError(error, context)]: the toast it raises, or the exception
    that escapes when the message cannot be computed. *)
Inductive Toast :=
| ToastError (title : string) (description : JsVal)
| ToastSuccess (title : string).

Definition handleApiError (error : JsVal) (context : option string)
  : Toast + string :=
  match getReadableMessage error with
  | Throw e => inr e
  | Return message =>
      let title :=
        match context with
        | Some c => if String.eqb c "" then "Error" else c ++ " failed"
        | None => "Error"
        end in
      inl (ToastError title message)
  end.

(** The declared shapes: [ApiErrorResponse] gives [error], [message] and
    [detail] the type [string | undefined], and [Error.message] is a
    [string].  A value respects them when those reads yield a string or
    nothing. *)
Definition string_or_nullish (v : JsVal) : bool :=
  match v with
  | JUndefined | JNull | JStr _ => true
  | _ => false
  end.

Definition is_string (v : JsVal) : bool :=
  match v with
  | JStr _ => true
  | _ => false
  end.

Definition respects_declared_types (error : JsVal) : bool :=
  if instanceof_Error error then
    let data := optget (get error "response") "data" in
    string_or_nullish (optget data "error")
    && string_or_nullish (optget data "message")
    && string_or_nullish (optget data "detail")
    && is_string (get error "message")
  else true.

(** The first table entry whose key occurs in [m]. *)
Fixpoint first_match (entries : list (string * string)) (m : string)
  : option (string * string) :=
  match entries with
  | [] => None
  | (key, friendly) :: rest =>
      if includes m key then Some (key, friendly) else first_match rest m
  end.

(** Sample inputs. *)
Definition new_Error (message : string) : JsVal :=
  JObj ClsError [("message", JStr message)].

Definition axios_error (message : string) (code : JsVal) (data : JsVal) : JsVal :=
  JObj ClsAxiosError
    [("message", JStr message); ("code", code);
     ("response", JObj ClsObject [("status", JNum 400); ("data", data)])].

(** The error envelope of the backend guidelines:
    [{ success: false, error: { code, message } }]. *)
Definition envelope_data : JsVal :=
  JObj ClsObject
    [("success", JBool false);
     ("error", JObj ClsObject
        [("code", JStr "RTSP_CONNECTION_FAILED");
         ("message", JStr "Unable to connect to RTSP stream")])].

Example getReadableMessage_known_key :
  getReadableMessage
    (axios_error "Request failed with status code 400" (JStr "ERR_BAD_REQUEST")
       (JObj ClsObject [("error", JStr "Invalid RTSP URL format: missing host")]))
  = Return (JStr "The RTSP URL format is invalid. Please use rtsp://...").
Proof. reflexivity. Qed.

Example getReadableMessage_timeout :
  getReadableMessage (axios_error "timeout of 60000ms exceeded" (JStr "ECONNABORTED") JUndefined)
  = Return (JStr "The request timed out. The stream may take a while to start.").
Proof. reflexivity. Qed.

Example getReadableMessage_string_thrown :
  getReadableMessage (JStr "boom") = Return (JStr UNEXPECTED).
Proof. reflexivity. Qed.

(** *** Properties of [getReadableMessage] *)

Ltac split4 := split; [|split; [|split]].

Lemma scan_entries_string entries m :
  scan_entries entries (JStr m) =
  Return (JStr match first_match entries m with
               | Some (_, friendly) => friendly
               | None => m
               end).
Proof.
  induction entries as [|[key friendly] rest IH]; simpl.
  - reflexivity.
  - destruct (includes m key); [reflexivity | exact IH].
Qed.

Lemma first_match_In entries m key friendly :
  first_match entries m = Some (key, friendly) -> In (key, friendly) entries.
Proof.
  induction entries as [|[k f] rest IH]; simpl.
  - discriminate.
  - destruct (includes m k).
    + intros [= -> ->]. now left.
    + intros H. right. now apply IH.
Qed.

Lemma friendly_nonempty key friendly :
  In (key, friendly) ERROR_MESSAGES -> friendly <> "".
Proof.
  unfold ERROR_MESSAGES. simpl.
  intros [H | [H | [H | [H | [H | []]]]]]; injection H as _ <-; discriminate.
Qed.

Lemma or_else_string_or_nullish a b :
  string_or_nullish a = true -> string_or_nullish b = true ->
  string_or_nullish (or_else a b) = true.
Proof. unfold or_else. destruct (truthy a); trivial. Qed.

Lemma truthy_string_or_nullish v :
  string_or_nullish v = true -> truthy v = true ->
  exists m, v = JStr m /\ m <> "".
Proof.
  destruct v; simpl; try discriminate. intros _ H. exists s. split; [reflexivity|].
  intros ->. discriminate.
Qed.

Lemma or_else_nonempty v :
  is_string v = true -> exists s, or_else v (JStr UNEXPECTED) = JStr s /\ s <> "".
Proof.
  destruct v; simpl; try discriminate. intros _. unfold or_else. simpl.
  destruct (String.eqb_spec s "") as [->|Hne]; simpl.
  - exists UNEXPECTED. split; [reflexivity | discriminate].
  - exists s. now split.
Qed.

(** Whatever is neither an [AxiosError] nor an [Error] maps to the generic
    message: this needs no assumption on the value. *)
Lemma getReadableMessage_unknown error :
  instanceof_Error error = false ->
  getReadableMessage error = Return (JStr UNEXPECTED).
Proof.
  unfold getReadableMessage. intros H.
  destruct error as [| | | | | |[] props]; simpl in *; try reflexivity; discriminate.
Qed.

(** C10 (as stated, refuted).  The mapping is not total with a non-empty
    result: a plain [Error] with an empty message is mapped to the empty
    string, and an [AxiosError] whose response body carries an object under
    [error] makes [backendMessage.includes] throw a [TypeError]. *)
Lemma getReadableMessage_not_total :
  getReadableMessage (new_Error "") = Return (JStr "")
  /\ getReadableMessage
       (axios_error "Request failed with status code 502" (JStr "ERR_BAD_RESPONSE")
          envelope_data)
     = Throw "TypeError".
Proof. split; reflexivity. Qed.

(** C10 (amended).  On every input that respects the declared types (the
    backend fields [error], [message], [detail] are strings or absent, and an
    [Error] carries a string [message]) [getReadableMessage] returns a string
    and does not throw; an input that is neither an [AxiosError] nor an
    [Error] yields exactly the generic message; for an [AxiosError] the
    result is non-empty, and when its backend message contains a known key
    the result is the friendly text of the first such key of the table. *)
Theorem getReadableMessage_on_declared_types :
  forall error,
    respects_declared_types error = true ->
    exists s,
      getReadableMessage error = Return (JStr s)
      /\ (instanceof_Error error = false -> s = UNEXPECTED)
      /\ (instanceof_AxiosError error = true -> s <> "")
      /\ (instanceof_AxiosError error = true ->
          forall m key friendly,
            backendMessage_of error = JStr m ->
            first_match ERROR_MESSAGES m = Some (key, friendly) ->
            s = friendly).
Proof.
  intros error Hty.
  destruct (instanceof_Error error) eqn:HE.
  2:{ exists UNEXPECTED. rewrite (getReadableMessage_unknown error HE).
      assert (HA : instanceof_AxiosError error = false)
        by (destruct error as [| | | | | |[] props]; simpl in *; congruence).
      rewrite HA. split4; [reflexivity | intros _; reflexivity | discriminate | discriminate]. }
  unfold respects_declared_types in Hty. rewrite HE in Hty. cbv zeta in Hty.
  apply andb_prop in Hty as [Hty Hmsg].
  apply andb_prop in Hty as [Hty Hdet].
  apply andb_prop in Hty as [Herr Hmes].
  destruct (instanceof_AxiosError error) eqn:HA.
  - unfold getReadableMessage. rewrite HA. cbv zeta.
    assert (Hbm : string_or_nullish (backendMessage_of error) = true)
      by (unfold backendMessage_of; auto using or_else_string_or_nullish).
    destruct (truthy (backendMessage_of error)) eqn:Htr.
    + destruct (truthy_string_or_nullish _ Hbm Htr) as [m [Hm Hne]].
      rewrite Hm, scan_entries_string.
      destruct (first_match ERROR_MESSAGES m) as [[key friendly]|] eqn:Hfm.
      * exists friendly. split4; [reflexivity | discriminate | |].
        -- intros _. eapply friendly_nonempty, first_match_In, Hfm.
        -- intros _ m' key' friendly' [= <-] Hfm'. congruence.
      * exists m. split4; [reflexivity | discriminate | intros _; exact Hne |].
        intros _ m' key' friendly' [= <-] Hfm'. congruence.
    + assert (Hnone : forall m key friendly,
                 backendMessage_of error = JStr m ->
                 first_match ERROR_MESSAGES m = Some (key, friendly) -> False).
      { intros m key friendly Hm Hfm. rewrite Hm in Htr. simpl in Htr.
        destruct (String.eqb m "") eqn:E; [|discriminate].
        apply String.eqb_eq in E. subst m. vm_compute in Hfm. discriminate. }
      destruct (strict_eq_str (get error "code") "ECONNABORTED").
      { eexists. split4; [reflexivity | discriminate | intros _; discriminate |].
        intros _ m key friendly Hm Hfm. destruct (Hnone _ _ _ Hm Hfm). }
      destruct (strict_eq_str (get error "code") "ERR_NETWORK").
      { eexists. split4; [reflexivity | discriminate | intros _; discriminate |].
        intros _ m key friendly Hm Hfm. destruct (Hnone _ _ _ Hm Hfm). }
      destruct (or_else_nonempty _ Hmsg) as [s [Hs Hne]].
      exists s. rewrite Hs. split4; [reflexivity | discriminate | intros _; exact Hne |].
      intros _ m key friendly Hm Hfm. destruct (Hnone _ _ _ Hm Hfm).
  - unfold getReadableMessage. rewrite HA, HE.
    destruct (get error "message") as [| | | |s| |] eqn:Hg; try discriminate.
    exists s. split4; [reflexivity | discriminate | discriminate | discriminate].
Qed.

Lemma getReadableMessage_on_declared_types_witness :
  exists s,
    getReadableMessage
      (axios_error "Request failed with status code 400" (JStr "ERR_BAD_REQUEST")
         (JObj ClsObject [("error", JStr "Failed to start stream: timeout of 5s")]))
    = Return (JStr s)
    /\ s = "Could not start the stream. Please verify the URL is accessible.".
Proof.
  destruct (getReadableMessage_on_declared_types
              (axios_error "Request failed with status code 400" (JStr "ERR_BAD_REQUEST")
                 (JObj ClsObject [("error", JStr "Failed to start stream: timeout of 5s")]))
              eq_refl) as [s [Hs [_ [_ Hk]]]].
  exists s. split; [exact Hs|].
  apply (Hk eq_refl "Failed to start stream: timeout of 5s" "Failed to start stream").
  - reflexivity.
  - reflexivity.
Defined.

(** *** Well-formed responses, and [createApiError] *)

(** A response body with the three optional fields of [ApiErrorResponse]. *)
Definition opt_field (k : string) (v : option string) : list (string * JsVal) :=
  match v with
  | Some s => [(k, JStr s)]
  | None => []
  end.

Definition api_body (e m d : option string) : JsVal :=
  JObj ClsObject (opt_field "error" e ++ opt_field "message" m ++ opt_field "detail" d)%list.

(** The first field that is present and not empty. *)
Fixpoint first_nonempty (l : list (option string)) : option string :=
  match l with
  | [] => None
  | Some s :: rest => if String.eqb s "" then first_nonempty rest else Some s
  | None :: rest => first_nonempty rest
  end.

(** A backend message as the user reads it. *)
Definition translate (m : string) : string :=
  match first_match ERROR_MESSAGES m with
  | Some (_, friendly) => friendly
  | None => m
  end.

Section ErrorConstructor.
(** [String(v)], which [new Error(v)] applies to its argument; on a string
    it is the identity. *)
Variable ToString : JsVal -> string.
Hypothesis ToString_string : forall s, ToString (JStr s) = s.

(** [new Error(message)]: [undefined] leaves the message to the prototype. *)
Definition construct_Error (message : JsVal) : JsVal :=
  match message with
  | JUndefined => JObj ClsError []
  | v => JObj ClsError [("message", JStr (ToString v))]
  end.

Definition createApiError (error : JsVal) : Completion :=
  match getReadableMessage error with
  | Return message => Return (construct_Error message)
  | Throw name => Throw name
  end.

End ErrorConstructor.

Definition field_val (v : option string) : JsVal :=
  match v with
  | Some s => JStr s
  | None => JUndefined
  end.

Lemma api_body_fields e m d :
  optget (api_body e m d) "error" = field_val e
  /\ optget (api_body e m d) "message" = field_val m
  /\ optget (api_body e m d) "detail" = field_val d.
Proof. destruct e, m, d; repeat split. Qed.

Ltac case_field x H :=
  destruct x as [x|]; [destruct (String.eqb x "") eqn:H|].

Lemma pick_field (e m d : option string) :
  match first_nonempty [e; m; d] with
  | Some b =>
      or_else (or_else (field_val e) (field_val m)) (field_val d) = JStr b
      /\ String.eqb b "" = false
  | None =>
      truthy (or_else (or_else (field_val e) (field_val m)) (field_val d)) = false
  end.
Proof.
  case_field e He; case_field m Hm; case_field d Hd;
    unfold or_else; cbn [first_nonempty field_val truthy];
    rewrite ?He, ?Hm, ?Hd; cbn [negb truthy];
    rewrite ?He, ?Hm, ?Hd; cbn [negb truthy];
    rewrite ?He, ?Hm, ?Hd; cbn [negb truthy]; auto.
Qed.

(** X1.  For an [AxiosError] whose response body carries [error],
    [message] and [detail] as optional strings, the first of them that is
    present and not empty decides: it is translated through the table, or
    returned as it is when no key occurs in it.  Only when none is usable do
    the error's [code] and then its own [message] come into play. *)
Theorem backend_message_precedence :
  forall (msg : string) (code : JsVal) (e m d : option string),
    getReadableMessage (axios_error msg code (api_body e m d))
    = match first_nonempty [e; m; d] with
      | Some b => Return (JStr (translate b))
      | None =>
          if strict_eq_str code "ECONNABORTED" then
            Return (JStr "The request timed out. The stream may take a while to start.")
          else if strict_eq_str code "ERR_NETWORK" then
            Return (JStr "Unable to connect to the server. Please check your connection.")
          else Return (JStr (if String.eqb msg "" then UNEXPECTED else msg))
      end.
Proof.
  intros msg code e m d.
  assert (Hbm : backendMessage_of (axios_error msg code (api_body e m d))
                = or_else (or_else (field_val e) (field_val m)) (field_val d)).
  { destruct (api_body_fields e m d) as (H1 & H2 & H3).
    unfold backendMessage_of.
    change (optget (get (axios_error msg code (api_body e m d)) "response") "data")
      with (api_body e m d).
    now rewrite H1, H2, H3. }
  unfold getReadableMessage.
  change (instanceof_AxiosError (axios_error msg code (api_body e m d))) with true.
  cbv zeta iota. rewrite Hbm.
  change (get (axios_error msg code (api_body e m d)) "code") with code.
  change (get (axios_error msg code (api_body e m d)) "message") with (JStr msg).
  pose proof (pick_field e m d) as Hpick.
  destruct (first_nonempty [e; m; d]) as [b|].
  - destruct Hpick as (-> & Hb). cbn [truthy]. rewrite Hb. cbn [negb].
    now rewrite scan_entries_string.
  - rewrite Hpick. unfold or_else. cbn [truthy].
    destruct (String.eqb msg ""); reflexivity.
Qed.

Lemma getReadableMessage_returns_string error :
  respects_declared_types error = true ->
  exists s, getReadableMessage error = Return (JStr s).
Proof.
  intros Hty. destruct (instanceof_Error error) eqn:HE.
  2:{ exists UNEXPECTED. now apply getReadableMessage_unknown. }
  unfold respects_declared_types in Hty. rewrite HE in Hty. cbv zeta in Hty.
  apply andb_prop in Hty as [Hty Hmsg].
  apply andb_prop in Hty as [Hty Hdet].
  apply andb_prop in Hty as [Herr Hmes].
  unfold getReadableMessage. rewrite HE.
  destruct (instanceof_AxiosError error).
  - cbv zeta.
    assert (Hbm : string_or_nullish (backendMessage_of error) = true)
      by (unfold backendMessage_of; auto using or_else_string_or_nullish).
    destruct (truthy (backendMessage_of error)) eqn:Htr.
    + destruct (truthy_string_or_nullish _ Hbm Htr) as [m [Hm _]].
      rewrite Hm, scan_entries_string. eauto.
    + destruct (strict_eq_str (get error "code") "ECONNABORTED"); [eauto|].
      destruct (strict_eq_str (get error "code") "ERR_NETWORK"); [eexists; reflexivity|].
      destruct (or_else_nonempty _ Hmsg) as [s [Hs _]]. rewrite Hs. eauto.
  - destruct (get error "message"); try discriminate. eauto.
Qed.

(** X2.  Wrapping is idempotent on inputs of the declared types:
    [createApiError(e)] is a plain [Error] whose message is what
    [getReadableMessage(e)] returns, mapping that error again returns the
    same message, and wrapping it again gives the same error. *)
Theorem createApiError_idempotent :
  forall (ToString : JsVal -> string),
    (forall s, ToString (JStr s) = s) ->
    forall error,
      respects_declared_types error = true ->
      exists s,
        getReadableMessage error = Return (JStr s)
        /\ createApiError ToString error = Return (new_Error s)
        /\ getReadableMessage (new_Error s) = Return (JStr s)
        /\ createApiError ToString (new_Error s) = Return (new_Error s).
Proof.
  intros ToString Hstr error Hty.
  destruct (getReadableMessage_returns_string error Hty) as [s Hs].
  assert (Hplain : getReadableMessage (new_Error s) = Return (JStr s)) by reflexivity.
  exists s. unfold createApiError. rewrite Hs, Hplain. cbn [construct_Error].
  rewrite Hstr. auto.
Qed.

(** [String(v)] on the values of the model that are strings; other values
    do not occur in the example below. *)
Definition ToString_sample (v : JsVal) : string :=
  match v with
  | JStr s => s
  | _ => "[object Object]"
  end.

Lemma createApiError_idempotent_witness :
  exists s,
    createApiError ToString_sample
      (axios_error "Network Error" (JStr "ERR_NETWORK") JUndefined)
    = Return (new_Error s)
    /\ getReadableMessage (new_Error s) = Return (JStr s).
Proof.
  destruct (createApiError_idempotent ToString_sample (fun s => eq_refl)
              (axios_error "Network Error" (JStr "ERR_NETWORK") JUndefined) eq_refl)
    as (s & _ & Hc & Hg & _).
  exists s. split; [exact Hc | exact Hg].
Defined.

End Errors.

(* ===================================================================== *)
(** ** features/rtsp/components: RtspInput *)
(* ===================================================================== *)

Module RtspInput.
Import JsString Errors.

Definition RTSP_PROTOCOL_PREFIX : string := "rtsp://".

Definition isValidRtspUrl (url : string) : bool :=
  startsWith url RTSP_PROTOCOL_PREFIX.

Record RtspConnectResponse := {
  status : string;
  url : string;
  streamPath : string;
  streamUrl : string
}.

(** How the promise of [connectStream(url)] settles: the server's answer is
    an input of the model. *)
Inductive Settled :=
| Resolved (response : RtspConnectResponse)
| Rejected (error : JsVal).

(** What the user can observe: the form's [url] and [isLoading], and the
    page's [streamUrl], which [onStreamStart] (= [setStreamUrl]) writes. *)
Record View := {
  form_url : string;
  isLoading : bool;
  page_streamUrl : option string
}.

(** Calls that leave the component, in program order. *)
Inductive Effect :=
| PreventDefault
| PostConnect (rtsp_url : string)
| Toasted (t : Toast)
| Uncaught (name : string).

Definition handleSubmit (connectStream : string -> Settled) (v : View)
  : View * list Effect :=
  if String.eqb (form_url v) "" then
    (v, [PreventDefault])
  else if negb (isValidRtspUrl (form_url v)) then
    (v, [PreventDefault;
         Toasted (ToastError "Invalid URL" (JStr "URL must start with rtsp://"))])
  else
    (* setIsLoading(true); try { ... } finally { setIsLoading(false) } *)
    match connectStream (form_url v) with
    | Resolved response =>
        ({| form_url := form_url v; isLoading := false;
            page_streamUrl := Some (streamUrl response) |},
         [PreventDefault; PostConnect (form_url v);
          Toasted (ToastSuccess "Stream started successfully")])
    | Rejected error =>
        ({| form_url := form_url v; isLoading := false;
            page_streamUrl := page_streamUrl v |},
         [PreventDefault; PostConnect (form_url v);
          match handleApiError error (Some "Stream connection") with
          | inl t => Toasted t
          | inr name => Uncaught name
          end])
    end.

(** The validation the design document asks of a source address, in its
    words: the scheme prefix, a length cap, and none of the characters a
    command shell interprets (semicolon, pipe, backtick, [$(]). *)
Definition spec_shell_free (url : string) : bool :=
  negb (includes url ";") && negb (includes url "|")
  && negb (includes url "`") && negb (includes url "$(").

Definition spec_valid_source (cap : nat) (url : string) : bool :=
  startsWith url "rtsp://" && (String.length url <=? cap)%nat
  && spec_shell_free url.

Definition blank_view (u : string) : View :=
  {| form_url := u; isLoading := false; page_streamUrl := None |}.

Definition accepting_server (u : string) : Settled :=
  Resolved {| status := "live"; url := u; streamPath := "/stream/index.m3u8";
              streamUrl := "http://localhost:5000/stream/index.m3u8" |}.

Fixpoint padding (n : nat) : string :=
  match n with
  | O => ""
  | S n' => String "a" (padding n')
  end.

Example handleSubmit_rejects_http :
  handleSubmit accepting_server (blank_view "http://youtube.com")
  = (blank_view "http://youtube.com",
     [PreventDefault;
      Toasted (ToastError "Invalid URL" (JStr "URL must start with rtsp://"))]).
Proof. reflexivity. Qed.

(** *** Properties of [handleSubmit] *)

Lemma length_padding n : String.length (padding n) = n.
Proof. induction n; simpl; congruence. Qed.

Lemma length_append (a b : string) :
  String.length (a ++ b) = String.length a + String.length b.
Proof. induction a; simpl; congruence. Qed.

Lemma isValidRtspUrl_prefix r : isValidRtspUrl ("rtsp://" ++ r) = true.
Proof. apply startsWith_spec. now exists r. Qed.

(** The client puts no cap on the length of the address it sends. *)
Lemma handleSubmit_no_length_cap (cap : nat) :
  let u := "rtsp://" ++ padding cap in
  (cap < String.length u)%nat
  /\ In (PostConnect u) (snd (handleSubmit accepting_server (blank_view u))).
Proof.
  cbv zeta. split.
  - rewrite length_append, length_padding. simpl. lia.
  - unfold handleSubmit. cbn [form_url blank_view].
    rewrite isValidRtspUrl_prefix. simpl. auto.
Qed.

(** C5 (as stated, refuted).  An address with the scheme prefix that holds
    a semicolon, a pipe, backticks and a subshell is sent to the server: the
    client tests the prefix only. *)
Lemma handleSubmit_sends_shell_characters :
  spec_shell_free "rtsp://cam/live;reboot|`id`$(id)" = false
  /\ spec_valid_source 2048 "rtsp://cam/live;reboot|`id`$(id)" = false
  /\ handleSubmit accepting_server (blank_view "rtsp://cam/live;reboot|`id`$(id)")
     = ({| form_url := "rtsp://cam/live;reboot|`id`$(id)"; isLoading := false;
           page_streamUrl := Some "http://localhost:5000/stream/index.m3u8" |},
        [PreventDefault; PostConnect "rtsp://cam/live;reboot|`id`$(id)";
         Toasted (ToastSuccess "Stream started successfully")]).
Proof. repeat split. Qed.

(** C5 (amended).  A connect request is sent exactly when the submitted
    address is non-empty and starts with [rtsp://], and it carries that
    address unchanged; when the address is empty or lacks the prefix, no
    request is sent and the observable state is what it was. *)
Theorem handleSubmit_gate :
  forall (connectStream : string -> Settled) (v : View),
    (forall u, In (PostConnect u) (snd (handleSubmit connectStream v)) <->
               u = form_url v /\ form_url v <> ""
               /\ isValidRtspUrl (form_url v) = true)
    /\ (form_url v = "" \/ isValidRtspUrl (form_url v) = false ->
        fst (handleSubmit connectStream v) = v
        /\ forall u, ~ In (PostConnect u) (snd (handleSubmit connectStream v))).
Proof.
  intros connectStream v.
  assert (Hiff : forall u, In (PostConnect u) (snd (handleSubmit connectStream v)) <->
               u = form_url v /\ form_url v <> ""
               /\ isValidRtspUrl (form_url v) = true).
  { intros u. unfold handleSubmit.
    destruct (String.eqb_spec (form_url v) "") as [He|Hne].
    - simpl. split.
      + intros [H|[]]. discriminate.
      + intros [_ [H _]]. contradiction.
    - destruct (isValidRtspUrl (form_url v)) eqn:Hv; simpl.
      + destruct (connectStream (form_url v)); simpl.
        * split.
          -- intros [H|[H|[H|[]]]]; try discriminate. injection H as <-. auto.
          -- intros [-> _]. auto.
        * split.
          -- intros [H|[H|[H|[]]]]; try discriminate.
             ++ injection H as <-. auto.
             ++ destruct (handleApiError error (Some "Stream connection")); discriminate.
          -- intros [-> _]. auto.
      + split.
        * intros [H|[H|[]]]; discriminate.
        * intros [_ [_ H]]. discriminate. }
  split; [exact Hiff|].
  intros Hbad. split.
  - unfold handleSubmit.
    destruct (String.eqb_spec (form_url v) "") as [He|Hne]; [reflexivity|].
    destruct Hbad as [Hbad|Hbad]; [contradiction|]. now rewrite Hbad.
  - intros u Hin. apply Hiff in Hin as [_ [Hne Hv]].
    destruct Hbad as [Hbad|Hbad]; congruence.
Qed.

Lemma handleSubmit_gate_witness :
  fst (handleSubmit accepting_server (blank_view "http://cam/live"))
  = blank_view "http://cam/live"
  /\ ~ In (PostConnect "http://cam/live")
         (snd (handleSubmit accepting_server (blank_view "http://cam/live"))).
Proof.
  destruct (handleSubmit_gate accepting_server (blank_view "http://cam/live"))
    as [_ Hrej].
  destruct (Hrej (or_intror eq_refl)) as [Hst Hno].
  split; [exact Hst | exact (Hno "http://cam/live")].
Defined.

(** *** How a submit settles *)

(** X3.  A submit of a non-empty [rtsp://] address always ends with
    [isLoading] reset and the typed address kept.  When the server resolves,
    the page's stream URL becomes the response's [streamUrl] and a success
    toast is shown.  When it rejects, the stream URL is left alone; an error
    of the declared types gives one error toast titled
    "Stream connection failed" whose description is the mapped message, and
    if the mapping throws, the exception escapes after the reset. *)
Theorem handleSubmit_settles :
  forall (connectStream : string -> Settled) (v : View),
    form_url v <> "" ->
    isValidRtspUrl (form_url v) = true ->
    isLoading (fst (handleSubmit connectStream v)) = false
    /\ form_url (fst (handleSubmit connectStream v)) = form_url v
    /\ match connectStream (form_url v) with
       | Resolved response =>
           page_streamUrl (fst (handleSubmit connectStream v))
           = Some (streamUrl response)
           /\ snd (handleSubmit connectStream v)
              = [PreventDefault; PostConnect (form_url v);
                 Toasted (ToastSuccess "Stream started successfully")]
       | Rejected error =>
           page_streamUrl (fst (handleSubmit connectStream v)) = page_streamUrl v
           /\ (respects_declared_types error = true ->
               exists s,
                 getReadableMessage error = Return (JStr s)
                 /\ snd (handleSubmit connectStream v)
                    = [PreventDefault; PostConnect (form_url v);
                       Toasted (ToastError "Stream connection failed" (JStr s))])
           /\ (forall name,
                 getReadableMessage error = Throw name ->
                 snd (handleSubmit connectStream v)
                 = [PreventDefault; PostConnect (form_url v); Uncaught name])
       end.
Proof.
  intros connectStream v Hne Hv. unfold handleSubmit.
  destruct (String.eqb_spec (form_url v) "") as [He|_]; [contradiction|].
  rewrite Hv. cbn [negb].
  destruct (connectStream (form_url v)) as [response|error]; cbn [fst snd isLoading form_url page_streamUrl].
  - auto.
  - split; [reflexivity|]. split; [reflexivity|]. split; [reflexivity|]. split.
    + intros Hty. destruct (getReadableMessage_returns_string error Hty) as [s Hs].
      exists s. split; [exact Hs|]. unfold handleApiError. rewrite Hs. reflexivity.
    + intros name Hthrow. unfold handleApiError. rewrite Hthrow. reflexivity.
Qed.

Definition refusing_server (u : string) : Settled :=
  Rejected (axios_error "Request failed with status code 400" (JStr "ERR_BAD_REQUEST")
              (api_body (Some "Invalid RTSP URL format") None None)).

Lemma handleSubmit_settles_witness :
  exists s,
    getReadableMessage
      (axios_error "Request failed with status code 400" (JStr "ERR_BAD_REQUEST")
         (api_body (Some "Invalid RTSP URL format") None None))
    = Return (JStr s)
    /\ snd (handleSubmit refusing_server (blank_view "rtsp://cam/live"))
       = [PreventDefault; PostConnect "rtsp://cam/live";
          Toasted (ToastError "Stream connection failed" (JStr s))].
Proof.
  destruct (handleSubmit_settles refusing_server (blank_view "rtsp://cam/live")
              ltac:(discriminate) eq_refl) as (_ & _ & _ & Hty & _).
  exact (Hty eq_refl).
Defined.

End RtspInput.

(* ===================================================================== *)
(** ** features/overlays/components/overlay-box.tsx *)
(* ===================================================================== *)

Module OverlayBox.
Open Scope Z_scope.
Open Scope list_scope.

(** Debounce delay in milliseconds. *)
Definition DEBOUNCE_DELAY : Z := 500.

(** The fields of [Overlay] this component reads.  Pixel coordinates are
    integers here ([parseInt] yields one; a drag may report fractions, which
    the debouncer never inspects). *)
Record Overlay := {
  overlay_id : string;
  overlay_x : Z;
  overlay_y : Z;
  overlay_width : Z;
  overlay_height : Z
}.

Record OverlayPosition := { pos_x : Z; pos_y : Z }.
Record OverlaySize := { size_width : Z; size_height : Z }.

(** [Partial<Overlay>] as the two gesture handlers build it. *)
Record Updates := {
  upd_x : option Z;
  upd_y : option Z;
  upd_width : option Z;
  upd_height : option Z
}.

(** A timer waiting in the event loop: the id [setTimeout] returned, the
    time it is due, and what its callback closed over. *)
Record Timer := {
  handle : nat;
  due : Z;
  arg_id : string;
  arg_updates : Updates
}.

(** One call [onUpdate(id, updates)], stamped with the time it was made. *)
Record Persist := {
  at_time : Z;
  target : string;
  fields : Updates
}.

(** The component instance together with the timers of the event loop.
    [cleared] and [persisted] record the [clearTimeout] and [onUpdate]
    calls in the order they were made.  [timers] is kept in the order the
    timers were set, which is the order they fall due: the delay is the
    same for all and the clock does not go back. *)
Record World := {
  now : Z;
  timers : list Timer;
  next_handle : nat;
  cleared : list nat;
  persisted : list Persist;
  mounted : bool;
  position : OverlayPosition;
  size : OverlaySize;
  updateTimeoutRef : option nat
}.

Definition set_now (t : Z) (w : World) : World :=
  {| now := t; timers := timers w; next_handle := next_handle w;
     cleared := cleared w; persisted := persisted w; mounted := mounted w;
     position := position w; size := size w;
     updateTimeoutRef := updateTimeoutRef w |}.

Definition set_ref (r : option nat) (w : World) : World :=
  {| now := now w; timers := timers w; next_handle := next_handle w;
     cleared := cleared w; persisted := persisted w; mounted := mounted w;
     position := position w; size := size w;
     updateTimeoutRef := r |}.

Definition set_mounted (b : bool) (w : World) : World :=
  {| now := now w; timers := timers w; next_handle := next_handle w;
     cleared := cleared w; persisted := persisted w; mounted := b;
     position := position w; size := size w;
     updateTimeoutRef := updateTimeoutRef w |}.

Definition setPosition (p : OverlayPosition) (w : World) : World :=
  {| now := now w; timers := timers w; next_handle := next_handle w;
     cleared := cleared w; persisted := persisted w; mounted := mounted w;
     position := p; size := size w;
     updateTimeoutRef := updateTimeoutRef w |}.

Definition setSize (s : OverlaySize) (w : World) : World :=
  {| now := now w; timers := timers w; next_handle := next_handle w;
     cleared := cleared w; persisted := persisted w; mounted := mounted w;
     position := position w; size := s;
     updateTimeoutRef := updateTimeoutRef w |}.

(** [clearTimeout(h)] *)
Definition clearTimeout (h : nat) (w : World) : World :=
  {| now := now w;
     timers := filter (fun tm => negb (Nat.eqb (handle tm) h)) (timers w);
     next_handle := next_handle w;
     cleared := cleared w ++ [h]; persisted := persisted w;
     mounted := mounted w; position := position w; size := size w;
     updateTimeoutRef := updateTimeoutRef w |}.

(** [setTimeout(() => { onUpdate(id, updates); ref.current = null }, delay)] *)
Definition setTimeout (id : string) (updates : Updates) (delay : Z) (w : World)
  : nat * World :=
  (next_handle w,
   {| now := now w;
      timers := timers w ++ [{| handle := next_handle w; due := now w + delay;
                                arg_id := id; arg_updates := updates |}];
      next_handle := S (next_handle w);
      cleared := cleared w; persisted := persisted w;
      mounted := mounted w; position := position w; size := size w;
      updateTimeoutRef := updateTimeoutRef w |}).

(** The timer's callback runs: the timer leaves the loop, [onUpdate] is
    called, and the ref is reset to [null]. *)
Definition fire (tm : Timer) (w : World) : World :=
  {| now := now w;
     timers := filter (fun x => negb (Nat.eqb (handle x) (handle tm))) (timers w);
     next_handle := next_handle w;
     cleared := cleared w;
     persisted := persisted w ++ [{| at_time := due tm; target := arg_id tm;
                                     fields := arg_updates tm |}];
     mounted := mounted w; position := position w; size := size w;
     updateTimeoutRef := None |}.

(** Time passes until [t]: every timer due by then fires, earliest first. *)
Definition advance (t : Z) (w : World) : World :=
  set_now (Z.max (now w) t)
    (fold_left (fun acc tm => fire tm acc)
       (filter (fun tm => due tm <=? t) (timers w)) w).

(** [if (updateTimeoutRef.current)]: a timer id is truthy unless it is 0. *)
Definition ref_truthy (w : World) : option nat :=
  match updateTimeoutRef w with
  | Some h => if Nat.eqb h 0 then None else Some h
  | None => None
  end.

Section Component.
Variable overlay : Overlay.

Definition debouncedUpdate (updates : Updates) (w : World) : World :=
  let w1 := match ref_truthy w with
            | Some h => clearTimeout h w
            | None => w
            end in
  let (h, w2) := setTimeout (overlay_id overlay) updates DEBOUNCE_DELAY w1 in
  set_ref (Some h) w2.

Definition handleDragStop (x y : Z) (w : World) : World :=
  let newPosition := {| pos_x := x; pos_y := y |} in
  debouncedUpdate
    {| upd_x := Some x; upd_y := Some y; upd_width := None; upd_height := None |}
    (setPosition newPosition w).

Definition handleResizeStop (width height x y : Z) (w : World) : World :=
  let newSize := {| size_width := width; size_height := height |} in
  debouncedUpdate
    {| upd_x := Some x; upd_y := Some y;
       upd_width := Some width; upd_height := Some height |}
    (setPosition {| pos_x := x; pos_y := y |} (setSize newSize w)).

(** The cleanup of the mount effect. *)
Definition cleanup (w : World) : World :=
  set_mounted false
    match ref_truthy w with
    | Some h => clearTimeout h w
    | None => w
    end.

(** The state right after the first render. *)
Definition mount : World :=
  {| now := 0; timers := []; next_handle := 1; cleared := []; persisted := [];
     mounted := true;
     position := {| pos_x := overlay_x overlay; pos_y := overlay_y overlay |};
     size := {| size_width := overlay_width overlay;
                size_height := overlay_height overlay |};
     updateTimeoutRef := None |}.

Inductive Gesture :=
| DragStop (x y : Z)
| ResizeStop (width height x y : Z).

Inductive Event :=
| Gest (g : Gesture)
| Unmount.

(** What a gesture hands to [debouncedUpdate]. *)
Definition payload (g : Gesture) : Updates :=
  match g with
  | DragStop x y =>
      {| upd_x := Some x; upd_y := Some y; upd_width := None; upd_height := None |}
  | ResizeStop width height x y =>
      {| upd_x := Some x; upd_y := Some y;
         upd_width := Some width; upd_height := Some height |}
  end.

(** The handler of each event.  [handleDragStop], [handleResizeStop] and
    [debouncedUpdate] do not test whether the component is still mounted:
    [mounted] only records that the cleanup has run. *)
Definition handle_event (e : Event) (w : World) : World :=
  match e with
  | Gest (DragStop x y) => handleDragStop x y w
  | Gest (ResizeStop width height x y) => handleResizeStop width height x y w
  | Unmount => cleanup w
  end.

(** An event stamped [t]: the clock reaches [t], then the handler runs. *)
Definition step (te : Z * Event) (w : World) : World :=
  handle_event (snd te) (advance (fst te) w).

Definition exec (es : list (Z * Event)) (w : World) : World :=
  fold_left (fun acc te => step te acc) es w.

Definition gestures (b : list (Z * Gesture)) : list (Z * Event) :=
  map (fun tg => (fst tg, Gest (snd tg))) b.

(** Each update of [rest] arrives less than [DEBOUNCE_DELAY] after the one
    before it, the first of them after [t]. *)
Fixpoint within_window (t : Z) (rest : list (Z * Gesture)) : bool :=
  match rest with
  | [] => true
  | (t', _) :: r => (t <=? t') && (t' - t <? DEBOUNCE_DELAY) && within_window t' r
  end.

(** Time stamps never decrease along [es], starting from [t]. *)
Fixpoint chronological (t : Z) (es : list (Z * Event)) : bool :=
  match es with
  | [] => true
  | (t', _) :: r => (t <=? t') && chronological t' r
  end.

(** Nothing pending: the state between bursts. *)
Definition quiescent (w : World) : bool :=
  mounted w
  && match timers w with [] => true | _ => false end
  && match updateTimeoutRef w with None => true | Some _ => false end
  && negb (Nat.eqb (next_handle w) 0).

End Component.

Definition sample_overlay : Overlay :=
  {| overlay_id := "65a5"; overlay_x := 10; overlay_y := 20;
     overlay_width := 200; overlay_height := 50 |}.

(** The scenario of the design document: updates at 0, 100 and 200 ms. *)
Example three_updates :
  persisted
    (advance 1000
       (exec sample_overlay
          [(0, Gest (DragStop 1 1)); (100, Gest (DragStop 2 2));
           (200, Gest (DragStop 3 3))]
          (mount sample_overlay)))
  = [{| at_time := 700; target := "65a5"; fields := payload (DragStop 3 3) |}].
Proof. reflexivity. Qed.

(** *** The debounce within a burst *)

Section Burst.
Variable overlay : Overlay.

(** Exactly one timer is pending: [h], set at time [t] with payload [u]. *)
Definition Pending (w : World) (h : nat) (t : Z) (u : Updates) : Prop :=
  mounted w = true
  /\ timers w = [{| handle := h; due := t + DEBOUNCE_DELAY;
                    arg_id := overlay_id overlay; arg_updates := u |}]
  /\ updateTimeoutRef w = Some h
  /\ h <> 0%nat
  /\ next_handle w = S h
  /\ now w = t.

Lemma handle_gesture_payload g w :
  handle_event overlay (Gest g) w =
  debouncedUpdate overlay (payload g)
    match g with
    | DragStop x y => setPosition {| pos_x := x; pos_y := y |} w
    | ResizeStop width height x y =>
        setPosition {| pos_x := x; pos_y := y |}
          (setSize {| size_width := width; size_height := height |} w)
    end.
Proof.
  unfold handle_event. destruct g; reflexivity.
Qed.

Lemma step_from_quiescent w t g :
  quiescent w = true -> now w <= t ->
  Pending (step overlay (t, Gest g) w) (next_handle w) t (payload g)
  /\ persisted (step overlay (t, Gest g) w) = persisted w
  /\ cleared (step overlay (t, Gest g) w) = cleared w.
Proof.
  unfold quiescent. intros Hq Hle.
  destruct w as [n ts nh cl ps m p sz r]; simpl in *.
  destruct m; [|discriminate]. destruct ts; [|discriminate].
  destruct r; [discriminate|]. simpl in Hq.
  apply negb_true_iff, Nat.eqb_neq in Hq.
  unfold step, advance. cbn [fst snd timers filter fold_left now].
  rewrite handle_gesture_payload.
  unfold Pending.
  destruct g; cbn; rewrite (Z.max_r n t) by lia; repeat split; trivial.
Qed.

Lemma step_pending w h t0 u t g :
  Pending w h t0 u -> t0 <= t -> t - t0 < DEBOUNCE_DELAY ->
  Pending (step overlay (t, Gest g) w) (S h) t (payload g)
  /\ persisted (step overlay (t, Gest g) w) = persisted w
  /\ cleared (step overlay (t, Gest g) w) = cleared w ++ [h].
Proof.
  intros (Hm & Hts & Hr & Hh & Hnh & Hn) Hle Hlt.
  destruct w as [n ts nh cl ps m p sz r]; simpl in *. subst.
  assert (Hdue : (t0 + DEBOUNCE_DELAY <=? t) = false) by (apply Z.leb_gt; lia).
  assert (Hz : Nat.eqb h 0 = false) by now apply Nat.eqb_neq.
  unfold step, advance. cbn [fst snd timers filter fold_left now due].
  rewrite Hdue. cbn [fold_left].
  rewrite handle_gesture_payload.
  unfold Pending, debouncedUpdate, ref_truthy.
  destruct g; cbn; rewrite Hz; cbn; rewrite Nat.eqb_refl; cbn;
    rewrite (Z.max_r t0 t) by lia; repeat split; trivial; discriminate.
Qed.

(** The time and payload of the last update of a burst that starts with
    [(t, u)]. *)
Fixpoint last_update (t : Z) (u : Updates) (rest : list (Z * Gesture))
  : Z * Updates :=
  match rest with
  | [] => (t, u)
  | (t', g) :: r => last_update t' (payload g) r
  end.

Lemma exec_pending rest :
  forall w h t u,
    Pending w h t u -> within_window t rest = true ->
    let w' := exec overlay (gestures rest) w in
    Pending w' (h + List.length rest)%nat (fst (last_update t u rest))
            (snd (last_update t u rest))
    /\ persisted w' = persisted w
    /\ cleared w' = cleared w ++ seq h (List.length rest).
Proof.
  induction rest as [|[t' g] r IH]; intros w h t u HP Hwin; cbn zeta.
  - simpl. rewrite Nat.add_0_r, app_nil_r. auto.
  - simpl in Hwin.
    apply andb_prop in Hwin as [Hwin Hr].
    apply andb_prop in Hwin as [Hle Hlt].
    apply Z.leb_le in Hle. apply Z.ltb_lt in Hlt.
    destruct (step_pending w h t u t' g HP Hle Hlt) as (HP' & Hps & Hcl).
    specialize (IH _ _ _ _ HP' Hr). cbn zeta in IH.
    destruct IH as (HP'' & Hps' & Hcl').
    cbn [gestures map exec fold_left fst snd List.length last_update seq].
    change (fold_left (fun acc te => step overlay te acc)
              (map (fun tg => (fst tg, Gest (snd tg))) r)
              (step overlay (t', Gest g) w))
      with (exec overlay (gestures r) (step overlay (t', Gest g) w)).
    replace (h + S (List.length r))%nat with (S h + List.length r)%nat by lia.
    split; [exact HP''|]. split; [congruence|].
    rewrite Hcl', Hcl, <- app_assoc. reflexivity.
Qed.

Lemma advance_pending_fires w h t u T :
  Pending w h t u -> t + DEBOUNCE_DELAY <= T ->
  persisted (advance T w)
  = persisted w ++ [{| at_time := t + DEBOUNCE_DELAY;
                       target := overlay_id overlay; fields := u |}]
  /\ cleared (advance T w) = cleared w
  /\ timers (advance T w) = [].
Proof.
  intros (Hm & Hts & Hr & Hh & Hnh & Hn) Hle.
  destruct w as [n ts nh cl ps m p sz r]; simpl in *. subst.
  unfold advance. cbn [timers filter due].
  replace (t + DEBOUNCE_DELAY <=? T) with true by (symmetry; apply Z.leb_le; lia).
  cbn. rewrite Nat.eqb_refl. auto.
Qed.

Lemma advance_pending_waits w h t u T :
  Pending w h t u -> T < t + DEBOUNCE_DELAY ->
  persisted (advance T w) = persisted w.
Proof.
  intros (Hm & Hts & Hr & Hh & Hnh & Hn) Hlt.
  destruct w as [n ts nh cl ps m p sz r]; simpl in *. subst.
  unfold advance. cbn [timers filter due].
  replace (t + DEBOUNCE_DELAY <=? T) with false by (symmetry; apply Z.leb_gt; lia).
  reflexivity.
Qed.

(** C1.  A burst of gesture-stop updates, each less than 500 ms after the
    one before, starting from a state with nothing pending: exactly one
    [onUpdate] call is made, it carries the payload of the last update, and
    it is made 500 ms after that update (and not before); the timers of all
    earlier updates of the burst were cleared, each when the next update
    arrived, and none is left. *)
Theorem debounce_burst_single_persist :
  forall (w : World) (t0 : Z) (g0 : Gesture) (rest : list (Z * Gesture)) (T : Z),
    quiescent w = true ->
    now w <= t0 ->
    within_window t0 rest = true ->
    fst (last_update t0 (payload g0) rest) + DEBOUNCE_DELAY <= T ->
    persisted (advance T (exec overlay (gestures ((t0, g0) :: rest)) w))
    = persisted w
      ++ [{| at_time := fst (last_update t0 (payload g0) rest) + DEBOUNCE_DELAY;
             target := overlay_id overlay;
             fields := snd (last_update t0 (payload g0) rest) |}]
    /\ (forall T', T' < fst (last_update t0 (payload g0) rest) + DEBOUNCE_DELAY ->
         persisted (advance T' (exec overlay (gestures ((t0, g0) :: rest)) w))
         = persisted w)
    /\ cleared (advance T (exec overlay (gestures ((t0, g0) :: rest)) w))
       = cleared w ++ seq (next_handle w) (List.length rest)
    /\ timers (advance T (exec overlay (gestures ((t0, g0) :: rest)) w)) = [].
Proof.
  intros w t0 g0 rest T Hq Hnow Hwin HT.
  destruct (step_from_quiescent w t0 g0 Hq Hnow) as (HP & Hps & Hcl).
  destruct (exec_pending rest _ _ _ _ HP Hwin) as (HP' & Hps' & Hcl').
  change (exec overlay (gestures ((t0, g0) :: rest)) w)
    with (exec overlay (gestures rest) (step overlay (t0, Gest g0) w)).
  destruct (advance_pending_fires _ _ _ _ T HP' HT) as (Hfire & Hclr & Hts).
  split; [|split; [|split]].
  - rewrite Hfire, Hps', Hps. reflexivity.
  - intros T' HT'. rewrite (advance_pending_waits _ _ _ _ T' HP' HT'). congruence.
  - rewrite Hclr, Hcl', Hcl. reflexivity.
  - exact Hts.
Qed.

End Burst.

Lemma debounce_burst_single_persist_witness :
  persisted
    (advance 700
       (exec sample_overlay
          (gestures [(0, DragStop 1 1); (100, ResizeStop 40 30 2 2);
                     (200, DragStop 3 3)])
          (mount sample_overlay)))
  = [{| at_time := 700; target := "65a5"; fields := payload (DragStop 3 3) |}].
Proof.
  exact (proj1 (debounce_burst_single_persist sample_overlay
                  (mount sample_overlay) 0 (DragStop 1 1)
                  [(100, ResizeStop 40 30 2 2); (200, DragStop 3 3)] 700
                  eq_refl (Z.le_refl 0) eq_refl (Z.le_refl 700))).
Defined.

(** *** Unmount, and what triggers a persist *)

Section Lifetime.
Variable overlay : Overlay.

(** At most one timer waits, and the ref holds its id. *)
Definition one_timer (w : World) : Prop :=
  next_handle w <> 0%nat
  /\ (timers w = []
      \/ exists tm, timers w = [tm]
                    /\ updateTimeoutRef w = Some (handle tm)
                    /\ handle tm <> 0%nat).

Lemma advance_no_timer t w :
  timers w = [] -> advance t w = set_now (Z.max (now w) t) w.
Proof. intros H. unfold advance. rewrite H. reflexivity. Qed.

Lemma advance_one_timer t w tm :
  timers w = [tm] ->
  advance t w =
  set_now (Z.max (now w) t) (if due tm <=? t then fire tm w else w).
Proof.
  intros H. unfold advance. rewrite H. simpl.
  destruct (due tm <=? t); reflexivity.
Qed.

Lemma timers_fire_single tm w :
  timers w = [tm] -> timers (fire tm w) = [].
Proof. intros H. unfold fire. simpl. rewrite H. simpl. now rewrite Nat.eqb_refl. Qed.

Lemma one_timer_advance t w : one_timer w -> one_timer (advance t w).
Proof.
  intros (Hnh & [Hts | (tm & Hts & Hr & Hh)]).
  - rewrite advance_no_timer by assumption. unfold one_timer. simpl. auto.
  - rewrite (advance_one_timer t w tm Hts). destruct (due tm <=? t).
    + unfold one_timer. cbn [set_now next_handle timers].
      change (timers (fire tm w)) with
        (filter (fun x => negb (Nat.eqb (handle x) (handle tm))) (timers w)).
      rewrite Hts. simpl. rewrite Nat.eqb_refl. simpl. auto.
    + unfold one_timer. simpl. split; [assumption|].
      right. exists tm. auto.
Qed.

Lemma one_timer_debouncedUpdate u w :
  one_timer w -> one_timer (debouncedUpdate overlay u w).
Proof.
  intros (Hnh & Hcases).
  unfold debouncedUpdate, ref_truthy.
  destruct Hcases as [Hts | (tm & Hts & Hr & Hh)].
  - assert (Hnew : forall w1, timers w1 = [] -> next_handle w1 = next_handle w ->
                one_timer (let (h, w2) := setTimeout (overlay_id overlay) u
                                            DEBOUNCE_DELAY w1 in
                           set_ref (Some h) w2)).
    { intros w1 H1 H2. unfold one_timer. simpl. rewrite H1, H2. simpl.
      split; [discriminate|].
      right. eexists. split; [reflexivity|]. simpl. auto. }
    destruct (updateTimeoutRef w) as [h|]; [destruct (Nat.eqb h 0)|];
      apply Hnew; simpl; try rewrite Hts; auto.
  - rewrite Hr. apply Nat.eqb_neq in Hh. rewrite Hh.
    unfold one_timer. simpl. rewrite Hts. simpl. rewrite Nat.eqb_refl. simpl.
    split; [discriminate|].
    right. eexists. split; [reflexivity|]. simpl. split; [reflexivity|].
    assumption.
Qed.

Lemma one_timer_cleanup w :
  one_timer w ->
  one_timer (cleanup w) /\ timers (cleanup w) = [] /\ mounted (cleanup w) = false
  /\ persisted (cleanup w) = persisted w.
Proof.
  intros (Hnh & Hcases).
  unfold cleanup, ref_truthy.
  destruct Hcases as [Hts | (tm & Hts & Hr & Hh)].
  - assert (Hgoal : timers (cleanup w) = []).
    { unfold cleanup, ref_truthy.
      destruct (updateTimeoutRef w) as [h|]; [destruct (Nat.eqb h 0)|];
        simpl; rewrite Hts; reflexivity. }
    unfold cleanup, ref_truthy in Hgoal.
    split; [|split; [exact Hgoal|split]].
    + unfold one_timer. rewrite Hgoal.
      destruct (updateTimeoutRef w) as [h|]; [destruct (Nat.eqb h 0)|]; simpl; auto.
    + reflexivity.
    + destruct (updateTimeoutRef w) as [h|]; [destruct (Nat.eqb h 0)|]; reflexivity.
  - rewrite Hr. apply Nat.eqb_neq in Hh. rewrite Hh.
    unfold one_timer. simpl. rewrite Hts. simpl. rewrite Nat.eqb_refl. simpl.
    auto 8.
Qed.

Lemma one_timer_setPosition p w : one_timer w -> one_timer (setPosition p w).
Proof. unfold one_timer. simpl. auto. Qed.

Lemma one_timer_setSize sz w : one_timer w -> one_timer (setSize sz w).
Proof. unfold one_timer. simpl. auto. Qed.

Lemma one_timer_step te w : one_timer w -> one_timer (step overlay te w).
Proof.
  intros H. unfold step. apply (one_timer_advance (fst te)) in H.
  set (w1 := advance (fst te) w) in *. unfold handle_event.
  destruct (snd te) as [[x y | width height x y] |].
  - apply one_timer_debouncedUpdate. now apply one_timer_setPosition.
  - apply one_timer_debouncedUpdate.
    now apply one_timer_setPosition, one_timer_setSize.
  - now apply one_timer_cleanup.
Qed.

Lemma one_timer_mount : one_timer (mount overlay).
Proof. unfold one_timer, mount. simpl. auto. Qed.

Lemma exec_app es1 es2 w :
  exec overlay (es1 ++ es2) w = exec overlay es2 (exec overlay es1 w).
Proof. unfold exec. apply fold_left_app. Qed.

Lemma one_timer_exec es : forall w, one_timer w -> one_timer (exec overlay es w).
Proof.
  induction es as [|te es IH]; intros w H; simpl; [exact H|].
  apply IH. now apply one_timer_step.
Qed.

(** No gesture reaches a component that is gone: React detaches the
    handlers with the element, so what follows the unmount is the cleanup
    and the passing of time. *)
Definition is_unmount (te : Z * Event) : bool :=
  match snd te with
  | Unmount => true
  | Gest _ => false
  end.

Definition gesture_free (es : list (Z * Event)) : bool := forallb is_unmount es.

(** The cleanup leaves no timer, whether or not one was waiting. *)
Lemma step_Unmount_dead t w :
  one_timer w ->
  mounted (step overlay (t, Unmount) w) = false
  /\ timers (step overlay (t, Unmount) w) = [].
Proof.
  intros H. apply (one_timer_advance t) in H.
  unfold step. cbn [fst snd]. set (w1 := advance t w) in *.
  unfold handle_event.
  destruct (one_timer_cleanup w1 H) as (_ & Hts & Hm' & _). auto.
Qed.

(** With no timer waiting and no gesture, nothing is scheduled or persisted. *)
Lemma step_idle te w :
  one_timer w -> timers w = [] -> is_unmount te = true ->
  timers (step overlay te w) = []
  /\ persisted (step overlay te w) = persisted w.
Proof.
  intros Hone Hts Hg. destruct te as [t [g|]]; [discriminate|].
  destruct (step_Unmount_dead t w Hone) as (_ & Hts'). split; [exact Hts'|].
  unfold step. cbn [fst snd]. rewrite advance_no_timer by assumption.
  unfold handle_event.
  assert (H1 : one_timer (set_now (Z.max (now w) t) w)).
  { rewrite <- (advance_no_timer t w Hts). now apply one_timer_advance. }
  destruct (one_timer_cleanup _ H1) as (_ & _ & _ & Hp). exact Hp.
Qed.

Lemma exec_idle es :
  forall w, one_timer w -> timers w = [] -> gesture_free es = true ->
  timers (exec overlay es w) = []
  /\ persisted (exec overlay es w) = persisted w.
Proof.
  induction es as [|te es IH]; intros w Hone Hts Hng; simpl; [auto|].
  simpl in Hng. apply andb_prop in Hng as [Hg Hng].
  destruct (step_idle te w Hone Hts Hg) as (Hts' & Hps').
  destruct (IH _ (one_timer_step te w Hone) Hts' Hng) as (Hts'' & Hps'').
  split; congruence.
Qed.

(** The persist made at time [T] with fields [u] stems from quiescence: an
    update with that payload was made at [T - 500], and no update of the
    history falls strictly inside the 500 ms before [T]. *)
Definition origin (es : list (Z * Event)) (T : Z) (u : Updates) : Prop :=
  (exists g, In (T - DEBOUNCE_DELAY, Gest g) es /\ payload g = u)
  /\ (forall t' g', In (t', Gest g') es -> ~ (T - DEBOUNCE_DELAY < t' < T)).

(** What the state remembers of the history [es] that led to it. *)
Definition history_inv (es : list (Z * Event)) (w : World) : Prop :=
  (forall t e, In (t, e) es -> t <= now w)
  /\ (forall p, In p (persisted w) ->
        at_time p <= now w /\ target p = overlay_id overlay
        /\ origin es (at_time p) (fields p))
  /\ (forall tm, In tm (timers w) ->
        now w < due tm /\ arg_id tm = overlay_id overlay
        /\ (exists g, In (due tm - DEBOUNCE_DELAY, Gest g) es
                      /\ payload g = arg_updates tm)
        /\ (forall t' g', In (t', Gest g') es -> t' <= due tm - DEBOUNCE_DELAY)).

Lemma history_inv_advance es t w :
  one_timer w -> history_inv es w -> now w <= t ->
  history_inv es (advance t w) /\ now (advance t w) = t.
Proof.
  intros (Hnh & Hcases) (Htimes & Hps & Hts) Hle.
  destruct Hcases as [Hnil | (tm & Hone & Hr & Hh)].
  - rewrite advance_no_timer by assumption. unfold history_inv. simpl.
    rewrite Hnil, Z.max_r by lia. split; [|reflexivity]. split; [|split].
    + intros t0 e Hin. specialize (Htimes _ _ Hin). lia.
    + intros p Hin. destruct (Hps _ Hin) as (Ha & Hb & Hc).
      split; [lia|]. auto.
    + intros x [].
  - rewrite (advance_one_timer t w tm Hone).
    destruct (Hts tm) as (Hdue & Hid & Hex & Hall); [rewrite Hone; now left|].
    destruct (due tm <=? t) eqn:Hd.
    + apply Z.leb_le in Hd. unfold history_inv.
      cbn [set_now now persisted timers].
      change (timers (fire tm w)) with
        (filter (fun x => negb (Nat.eqb (handle x) (handle tm))) (timers w)).
      change (persisted (fire tm w)) with
        (persisted w ++ [{| at_time := due tm; target := arg_id tm;
                            fields := arg_updates tm |}]).
      change (now (fire tm w)) with (now w).
      rewrite Hone. simpl. rewrite Nat.eqb_refl. simpl.
      rewrite Z.max_r by lia. split; [|reflexivity]. split; [|split].
      * intros t0 e Hin. specialize (Htimes _ _ Hin). lia.
      * intros p Hin. apply in_app_or in Hin as [Hin | [<- | []]].
        -- destruct (Hps _ Hin) as (Ha & Hb & Hc). repeat split; trivial; try lia.
           ++ apply Hc.
           ++ apply Hc.
        -- simpl. split; [lia|]. split; [exact Hid|]. split; [exact Hex|].
           intros t' g' Hin. specialize (Hall _ _ Hin). lia.
      * intros x [].
    + apply Z.leb_gt in Hd. unfold history_inv. simpl.
      rewrite Z.max_r by lia. split; [|reflexivity]. split; [|split].
      * intros t0 e Hin. specialize (Htimes _ _ Hin). lia.
      * intros p Hin. destruct (Hps _ Hin) as (Ha & Hb & Hc).
        split; [lia|]. auto.
      * intros x Hin. rewrite Hone in Hin. destruct Hin as [<- | []].
        split; [lia|]. auto.
Qed.

Lemma debouncedUpdate_effect u w :
  one_timer w ->
  timers (debouncedUpdate overlay u w)
  = [{| handle := next_handle w; due := now w + DEBOUNCE_DELAY;
        arg_id := overlay_id overlay; arg_updates := u |}]
  /\ persisted (debouncedUpdate overlay u w) = persisted w
  /\ now (debouncedUpdate overlay u w) = now w.
Proof.
  intros (Hnh & Hcases). unfold debouncedUpdate, ref_truthy.
  destruct Hcases as [Hnil | (tm & Hone & Hr & Hh)].
  - destruct (updateTimeoutRef w) as [h|]; [destruct (Nat.eqb h 0)|];
      simpl; rewrite Hnil; auto.
  - rewrite Hr. apply Nat.eqb_neq in Hh. rewrite Hh. simpl.
    rewrite Hone. simpl. rewrite Nat.eqb_refl. auto.
Qed.

Lemma origin_snoc es T u t e :
  origin es T u -> T <= t -> origin (es ++ [(t, e)]) T u.
Proof.
  intros ((g & Hin & Hp) & Hall) Hle. split.
  - exists g. split; [apply in_or_app; now left | exact Hp].
  - intros t' g' Hin'. apply in_app_or in Hin' as [Hin' | [Heq | []]].
    + now apply (Hall _ g').
    + injection Heq as <- _. lia.
Qed.

Lemma history_inv_handle es t e w :
  one_timer w -> history_inv es w -> now w = t ->
  history_inv (es ++ [(t, e)]) (handle_event overlay e w)
  /\ now (handle_event overlay e w) = t.
Proof.
  intros Hone (Htimes & Hps & Hts) Hnow.
  assert (Htimes' : forall t0 e0, In (t0, e0) (es ++ [(t, e)]) -> t0 <= t).
  { intros t0 e0 Hin. apply in_app_or in Hin as [Hin | [Heq | []]].
    - specialize (Htimes _ _ Hin). lia.
    - injection Heq as <- _. lia. }
  assert (Hps' : forall p, In p (persisted w) ->
             at_time p <= t /\ target p = overlay_id overlay
             /\ origin (es ++ [(t, e)]) (at_time p) (fields p)).
  { intros p Hin. destruct (Hps _ Hin) as (Ha & Hb & Hc).
    split; [lia|]. split; [exact Hb|]. apply origin_snoc; [exact Hc | lia]. }
  assert (Hupd : forall g w0,
             one_timer w0 -> now w0 = t ->
             persisted w0 = persisted w -> e = Gest g ->
             history_inv (es ++ [(t, e)]) (debouncedUpdate overlay (payload g) w0)
             /\ now (debouncedUpdate overlay (payload g) w0) = t).
  { intros g w0 H0 Hn0 Hp0 ->.
    destruct (debouncedUpdate_effect (payload g) w0 H0) as (Ht & Hp & Hn).
    split; [|congruence]. unfold history_inv. rewrite Ht, Hp, Hn, Hn0, Hp0.
    split; [exact Htimes'|]. split; [exact Hps'|].
    intros tm [<- | []]. cbn [due arg_id arg_updates].
    split; [unfold DEBOUNCE_DELAY; lia|]. split; [reflexivity|].
    replace (t + DEBOUNCE_DELAY - DEBOUNCE_DELAY) with t by lia. split.
    - exists g. split; [apply in_or_app; right; now left | reflexivity].
    - intros t' g' Hin. exact (Htimes' _ _ Hin). }
  unfold handle_event.
  destruct e as [[x y | width height x y] |].
  - apply (Hupd (DragStop x y)); trivial.
  - apply (Hupd (ResizeStop width height x y)); trivial.
  - destruct (one_timer_cleanup w Hone) as (_ & Hts' & _ & Hp').
    assert (Hn' : now (cleanup w) = now w).
    { unfold cleanup, ref_truthy.
      destruct (updateTimeoutRef w) as [h|]; [destruct (Nat.eqb h 0)|]; reflexivity. }
    split; [|congruence]. unfold history_inv. rewrite Hts', Hp', Hn', Hnow.
    split; [exact Htimes'|]. split; [exact Hps'|]. intros tm [].
Qed.

Lemma history_inv_step es t e w :
  one_timer w -> history_inv es w -> now w <= t ->
  history_inv (es ++ [(t, e)]) (step overlay (t, e) w)
  /\ now (step overlay (t, e) w) = t.
Proof.
  intros Hone Hinv Hle. unfold step. cbn [fst snd].
  destruct (history_inv_advance es t w Hone Hinv Hle) as (Hinv' & Hnow').
  apply history_inv_handle; trivial. now apply one_timer_advance.
Qed.

Lemma history_inv_exec es2 :
  forall es1 es3 w,
    one_timer w -> history_inv es1 w ->
    chronological (now w) (es2 ++ es3) = true ->
    history_inv (es1 ++ es2) (exec overlay es2 w)
    /\ chronological (now (exec overlay es2 w)) es3 = true.
Proof.
  induction es2 as [|[t e] r IH]; intros es1 es3 w Hone Hinv Hchr.
  - rewrite app_nil_r. split; [exact Hinv | exact Hchr].
  - simpl in Hchr. apply andb_prop in Hchr as [Hle Hr]. apply Z.leb_le in Hle.
    destruct (history_inv_step es1 t e w Hone Hinv Hle) as (Hinv' & Hnow').
    replace (es1 ++ (t, e) :: r) with ((es1 ++ [(t, e)]) ++ r)
      by (rewrite <- app_assoc; reflexivity).
    simpl. apply IH.
    + now apply one_timer_step.
    + exact Hinv'.
    + rewrite Hnow'. exact Hr.
Qed.

Lemma history_inv_mount : history_inv [] (mount overlay).
Proof.
  unfold history_inv, mount. simpl. repeat split; intros; contradiction.
Qed.

Lemma chronological_prefix es1 :
  forall t es2, chronological t (es1 ++ es2) = true -> chronological t es1 = true.
Proof.
  induction es1 as [|[t1 e1] r IH]; intros t es2 H; simpl in *; [reflexivity|].
  apply andb_prop in H as [H1 H2]. rewrite H1. simpl. eapply IH, H2.
Qed.

Lemma origin_before_unmount es t T u :
  origin (es ++ [(t, Unmount)]) T u -> origin es T u.
Proof.
  intros ((g & Hin & Hp) & Hall). split.
  - exists g. split; [|exact Hp].
    apply in_app_or in Hin as [Hin | [Heq | []]]; [exact Hin | discriminate].
  - intros t' g' Hin'. apply (Hall t' g'). apply in_or_app. now left.
Qed.

(** C6.  Whatever gestures and timers came before, the cleanup that runs
    at unmount leaves no timer waiting; from then on, with no gesture
    reaching the component that is gone, neither the passing of time nor
    anything else adds an [onUpdate] call: the persist that was pending is
    never made.  Every [onUpdate] call ever made was made by the timer: at a
    time [T] not after the unmount, with the payload of an update made at
    [T - 500] and no update strictly between [T - 500] and [T]; the
    component has no other path to [onUpdate]. *)
Theorem unmount_cancels_pending_persist :
  forall (es : list (Z * Event)) (t : Z) (es' : list (Z * Event)) (T : Z),
    chronological 0 (es ++ (t, Unmount) :: es') = true ->
    gesture_free es' = true ->
    timers (exec overlay (es ++ [(t, Unmount)]) (mount overlay)) = []
    /\ persisted (exec overlay (es ++ [(t, Unmount)]) (mount overlay))
       = persisted (advance t (exec overlay es (mount overlay)))
    /\ persisted (exec overlay (es ++ (t, Unmount) :: es') (mount overlay))
       = persisted (exec overlay (es ++ [(t, Unmount)]) (mount overlay))
    /\ persisted (advance T (exec overlay (es ++ (t, Unmount) :: es')
                               (mount overlay)))
       = persisted (exec overlay (es ++ [(t, Unmount)]) (mount overlay))
    /\ (forall p,
          In p (persisted (advance T (exec overlay (es ++ (t, Unmount) :: es')
                                        (mount overlay)))) ->
          at_time p <= t /\ target p = overlay_id overlay
          /\ origin es (at_time p) (fields p)).
Proof.
  intros es t es' T Hchr Hfree.
  set (w0 := exec overlay es (mount overlay)).
  assert (Hone : one_timer w0) by apply one_timer_exec, one_timer_mount.
  assert (Hun : exec overlay (es ++ [(t, Unmount)]) (mount overlay)
                = step overlay (t, Unmount) w0)
    by (rewrite exec_app; reflexivity).
  assert (Hall : exec overlay (es ++ (t, Unmount) :: es') (mount overlay)
                 = exec overlay es' (step overlay (t, Unmount) w0))
    by (rewrite exec_app; reflexivity).
  destruct (step_Unmount_dead t w0 Hone) as (Hm & Hts).
  destruct (exec_idle es' _ (one_timer_step (t, Unmount) w0 Hone) Hts Hfree)
    as (Hts' & Hps').
  destruct (history_inv_exec es [] ((t, Unmount) :: es') (mount overlay)
              one_timer_mount history_inv_mount Hchr) as (Hinv & Hchr').
  fold w0 in Hinv, Hchr'. simpl in Hinv, Hchr'.
  apply andb_prop in Hchr' as [Hle _]. apply Z.leb_le in Hle.
  destruct (history_inv_step es t Unmount w0 Hone Hinv Hle) as ((_ & Hps & _) & Hnow).
  assert (Hlater : persisted (advance T (exec overlay es' (step overlay (t, Unmount) w0)))
                   = persisted (step overlay (t, Unmount) w0)).
  { rewrite advance_no_timer by exact Hts'. simpl. exact Hps'. }
  rewrite Hun, Hall. split; [exact Hts|]. split; [|split; [exact Hps'|split]].
  - unfold step. cbn [fst snd handle_event].
    destruct (one_timer_cleanup _ (one_timer_advance t w0 Hone)) as (_ & _ & _ & Hp).
    exact Hp.
  - exact Hlater.
  - intros p Hin. rewrite Hlater in Hin.
    destruct (Hps _ Hin) as (Ha & Hb & Hc).
    split; [lia|]. split; [exact Hb|]. eapply origin_before_unmount, Hc.
Qed.

End Lifetime.

Lemma unmount_cancels_pending_persist_witness :
  timers
    (exec sample_overlay
       ([(0, Gest (DragStop 1 1)); (600, Gest (DragStop 2 2))] ++ [(700, Unmount)])
       (mount sample_overlay)) = []
  /\ persisted
       (advance 5000
          (exec sample_overlay
             ([(0, Gest (DragStop 1 1)); (600, Gest (DragStop 2 2))]
                ++ (700, Unmount) :: [])
             (mount sample_overlay)))
     = persisted
         (exec sample_overlay
            ([(0, Gest (DragStop 1 1)); (600, Gest (DragStop 2 2))]
               ++ [(700, Unmount)])
            (mount sample_overlay)).
Proof.
  pose proof (unmount_cancels_pending_persist sample_overlay
                [(0, Gest (DragStop 1 1)); (600, Gest (DragStop 2 2))] 700
                [] 5000 eq_refl eq_refl) as H.
  split; [exact (proj1 H) | exact (proj1 (proj2 (proj2 (proj2 H))))].
Defined.

(** The handlers themselves do not look at whether the component is
    mounted: were one called after the cleanup, it would schedule a persist
    like any other. *)
Example handler_after_cleanup_still_schedules :
  persisted
    (advance 5000
       (exec sample_overlay
          [(0, Gest (DragStop 1 1)); (700, Unmount); (800, Gest (DragStop 9 9))]
          (mount sample_overlay)))
  = [{| at_time := 500; target := "65a5"; fields := payload (DragStop 1 1) |};
     {| at_time := 1300; target := "65a5"; fields := payload (DragStop 9 9) |}].
Proof. reflexivity. Qed.

Example unmount_drops_the_pending_update :
  persisted
    (advance 5000
       (exec sample_overlay
          [(0, Gest (DragStop 1 1)); (600, Gest (DragStop 2 2)); (700, Unmount)]
          (mount sample_overlay)))
  = [{| at_time := 500; target := "65a5"; fields := payload (DragStop 1 1) |}].
Proof. reflexivity. Qed.

(** *** Updates that are not a burst, and what is written *)

Section Writes.
Variable overlay : Overlay.

(** Each update of [rest] arrives at least [DEBOUNCE_DELAY] after the one
    before it, the first of them after [t]. *)
Fixpoint spaced (t : Z) (rest : list (Z * Gesture)) : bool :=
  match rest with
  | [] => true
  | (t', _) :: r => (t + DEBOUNCE_DELAY <=? t') && spaced t' r
  end.

(** The [onUpdate] call an update made at [fst tg] leads to when no other
    update follows within the delay. *)
Definition persist_of (tg : Z * Gesture) : Persist :=
  {| at_time := fst tg + DEBOUNCE_DELAY; target := overlay_id overlay;
     fields := payload (snd tg) |}.

Definition is_gesture (te : Z * Event) : bool :=
  match snd te with
  | Gest _ => true
  | Unmount => false
  end.

Lemma step_pending_due w h t0 u t g :
  Pending overlay w h t0 u -> t0 + DEBOUNCE_DELAY <= t ->
  Pending overlay (step overlay (t, Gest g) w) (S h) t (payload g)
  /\ persisted (step overlay (t, Gest g) w)
     = persisted w ++ [{| at_time := t0 + DEBOUNCE_DELAY;
                          target := overlay_id overlay; fields := u |}]
  /\ cleared (step overlay (t, Gest g) w) = cleared w.
Proof.
  intros (Hm & Hts & Hr & Hh & Hnh & Hn) Hle.
  destruct w as [n ts nh cl ps m p sz r]; simpl in *. subst.
  assert (Hdue : (t0 + DEBOUNCE_DELAY <=? t) = true) by (apply Z.leb_le; lia).
  unfold step, advance. cbn [fst snd timers filter fold_left now due].
  rewrite Hdue. cbn [fold_left].
  rewrite handle_gesture_payload.
  unfold Pending, debouncedUpdate, ref_truthy, DEBOUNCE_DELAY in *.
  destruct g; cbn; rewrite Nat.eqb_refl; cbn;
    rewrite (Z.max_r t0 t) by lia; repeat split; trivial; discriminate.
Qed.

Lemma exec_spaced rest :
  forall w h t g,
    Pending overlay w h t (payload g) -> spaced t rest = true ->
    Pending overlay (exec overlay (gestures rest) w) (h + List.length rest)%nat
      (fst (last_update t (payload g) rest)) (snd (last_update t (payload g) rest))
    /\ persisted (exec overlay (gestures rest) w)
       ++ [{| at_time := fst (last_update t (payload g) rest) + DEBOUNCE_DELAY;
              target := overlay_id overlay;
              fields := snd (last_update t (payload g) rest) |}]
       = persisted w ++ map persist_of ((t, g) :: rest)
    /\ cleared (exec overlay (gestures rest) w) = cleared w.
Proof.
  induction rest as [|[t' g'] r IH]; intros w h t g HP Hsp.
  - simpl. rewrite Nat.add_0_r. auto.
  - simpl in Hsp. apply andb_prop in Hsp as [Hle Hr]. apply Z.leb_le in Hle.
    destruct (step_pending_due w h t (payload g) t' g' HP Hle) as (HP' & Hps & Hcl).
    destruct (IH _ _ _ _ HP' Hr) as (HP2 & Hps2 & Hcl2).
    cbn [gestures map exec fold_left fst snd List.length last_update].
    change (fold_left (fun acc te => step overlay te acc)
              (map (fun tg => (fst tg, Gest (snd tg))) r)
              (step overlay (t', Gest g') w))
      with (exec overlay (gestures r) (step overlay (t', Gest g') w)).
    replace (h + S (List.length r))%nat with (S h + List.length r)%nat by lia.
    split; [exact HP2|]. split; [|congruence].
    rewrite Hps2, Hps, <- app_assoc. reflexivity.
Qed.

(** X4.  Updates that are each at least 500 ms apart are not coalesced:
    from a state with nothing pending, every one of them leads to its own
    [onUpdate] call, 500 ms after it and in order, and no timer is ever
    cleared. *)
Theorem spaced_updates_each_persisted :
  forall (w : World) (t0 : Z) (g0 : Gesture) (rest : list (Z * Gesture)) (T : Z),
    quiescent w = true ->
    now w <= t0 ->
    spaced t0 rest = true ->
    fst (last_update t0 (payload g0) rest) + DEBOUNCE_DELAY <= T ->
    persisted (advance T (exec overlay (gestures ((t0, g0) :: rest)) w))
    = persisted w ++ map persist_of ((t0, g0) :: rest)
    /\ cleared (advance T (exec overlay (gestures ((t0, g0) :: rest)) w))
       = cleared w.
Proof.
  intros w t0 g0 rest T Hq Hnow Hsp HT.
  destruct (step_from_quiescent overlay w t0 g0 Hq Hnow) as (HP & Hps & Hcl).
  destruct (exec_spaced rest _ _ _ _ HP Hsp) as (HP' & Hps' & Hcl').
  change (exec overlay (gestures ((t0, g0) :: rest)) w)
    with (exec overlay (gestures rest) (step overlay (t0, Gest g0) w)).
  destruct (advance_pending_fires overlay _ _ _ _ T HP' HT) as (Hfire & Hclr & _).
  split.
  - rewrite Hfire, Hps', Hps. reflexivity.
  - rewrite Hclr, Hcl', Hcl. reflexivity.
Qed.

(** X5.  In every state the component can reach, at most one timer is
    waiting, and the ref holds its id: a pending persist can always be
    cancelled. *)
Theorem at_most_one_pending :
  forall (es : list (Z * Event)),
    (List.length (timers (exec overlay es (mount overlay))) <= 1)%nat
    /\ (forall tm,
          In tm (timers (exec overlay es (mount overlay))) ->
          ref_truthy (exec overlay es (mount overlay)) = Some (handle tm)).
Proof.
  intros es.
  destruct (one_timer_exec overlay es _ (one_timer_mount overlay))
    as (_ & [Hnil | (tm & Hone & Hr & Hh)]).
  - rewrite Hnil. split; [simpl; lia | intros tm []].
  - rewrite Hone. split; [simpl; lia|].
    intros tm' [<- | []]. unfold ref_truthy. rewrite Hr.
    apply Nat.eqb_neq in Hh. now rewrite Hh.
Qed.

Lemma writes_step te w :
  one_timer w ->
  (List.length (persisted (step overlay te w))
   + List.length (timers (step overlay te w))
   <= List.length (persisted w) + List.length (timers w)
      + (if is_gesture te then 1 else 0))%nat.
Proof.
  intros Hone.
  assert (Hadv : (List.length (persisted (advance (fst te) w))
                  + List.length (timers (advance (fst te) w))
                  = List.length (persisted w) + List.length (timers w))%nat).
  { destruct Hone as (_ & [Hnil | (tm & H1 & _)]).
    - rewrite advance_no_timer by assumption. reflexivity.
    - rewrite (advance_one_timer (fst te) w tm H1). destruct (due tm <=? fst te).
      + cbn [set_now persisted timers].
        change (timers (fire tm w)) with
          (filter (fun x => negb (Nat.eqb (handle x) (handle tm))) (timers w)).
        change (persisted (fire tm w)) with
          (persisted w ++ [{| at_time := due tm; target := arg_id tm;
                              fields := arg_updates tm |}]).
        rewrite H1, length_app. simpl. rewrite Nat.eqb_refl. simpl. lia.
      + reflexivity. }
  apply (one_timer_advance (fst te)) in Hone.
  unfold step. set (w1 := advance (fst te) w) in *. rewrite <- Hadv. clear Hadv.
  unfold handle_event, is_gesture.
  destruct (snd te) as [g|].
  - assert (Hg : forall w0, one_timer w0 ->
                 persisted w0 = persisted w1 ->
                 (List.length (persisted (debouncedUpdate overlay (payload g) w0))
                  + List.length (timers (debouncedUpdate overlay (payload g) w0))
                  <= List.length (persisted w1) + List.length (timers w1) + 1)%nat).
    { intros w0 H0 Hp0.
      destruct (debouncedUpdate_effect overlay (payload g) w0 H0) as (Ht & Hp & _).
      rewrite Ht, Hp, Hp0. simpl. lia. }
    destruct g as [x y | width height x y].
    + apply (Hg (setPosition {| pos_x := x; pos_y := y |} w1)); trivial.
    + apply (Hg (setPosition {| pos_x := x; pos_y := y |}
                   (setSize {| size_width := width; size_height := height |} w1)));
        trivial.
  - destruct (one_timer_cleanup w1 Hone) as (_ & Hts & _ & Hps).
    rewrite Hts, Hps. simpl. lia.
Qed.

Lemma writes_exec es :
  forall w,
    one_timer w ->
    (List.length (persisted (exec overlay es w))
     + List.length (timers (exec overlay es w))
     <= List.length (persisted w) + List.length (timers w)
        + List.length (filter is_gesture es))%nat.
Proof.
  induction es as [|te es IH]; intros w Hone; [simpl; lia|].
  pose proof (writes_step te w Hone) as Hs.
  specialize (IH _ (one_timer_step overlay te w Hone)).
  change (exec overlay (te :: es) w) with (exec overlay es (step overlay te w)).
  cbn [filter]. destruct (is_gesture te); cbn [List.length] in *; lia.
Qed.

(** X6.  The component never writes more often than the user moved the
    box: in every run, the [onUpdate] calls made so far, and the one still
    pending if any, number at most the gesture-stop events received. *)
Theorem writes_bounded_by_gestures :
  forall (es : list (Z * Event)),
    (List.length (persisted (exec overlay es (mount overlay)))
     + List.length (timers (exec overlay es (mount overlay)))
     <= List.length (filter is_gesture es))%nat.
Proof.
  intros es. pose proof (writes_exec es _ (one_timer_mount overlay)) as H.
  simpl in H. exact H.
Qed.

Lemma fold_fire_local l :
  forall w,
    mounted (fold_left (fun acc tm => fire tm acc) l w) = mounted w
    /\ position (fold_left (fun acc tm => fire tm acc) l w) = position w
    /\ size (fold_left (fun acc tm => fire tm acc) l w) = size w.
Proof.
  induction l as [|tm l IH]; intros w; [auto|].
  simpl. destruct (IH (fire tm w)) as (H1 & H2 & H3). auto.
Qed.

Lemma advance_local t w :
  mounted (advance t w) = mounted w
  /\ position (advance t w) = position w
  /\ size (advance t w) = size w.
Proof. unfold advance. cbn [set_now mounted position size]. apply fold_fire_local. Qed.

Lemma debouncedUpdate_local u w :
  mounted (debouncedUpdate overlay u w) = mounted w
  /\ position (debouncedUpdate overlay u w) = position w
  /\ size (debouncedUpdate overlay u w) = size w.
Proof.
  unfold debouncedUpdate. destruct (ref_truthy w); auto.
Qed.

(** X7.  The local draft follows every gesture at once, whatever timers
    are waiting or fall due: after a gesture-stop event on a mounted box, the
    shown position is the gesture's, and the shown size is the gesture's for
    a resize and unchanged for a drag. *)
Theorem draft_follows_gesture :
  forall (w : World) (t : Z) (g : Gesture),
    mounted w = true ->
    position (step overlay (t, Gest g) w)
    = match g with
      | DragStop x y | ResizeStop _ _ x y => {| pos_x := x; pos_y := y |}
      end
    /\ size (step overlay (t, Gest g) w)
       = match g with
         | DragStop _ _ => size w
         | ResizeStop width height _ _ =>
             {| size_width := width; size_height := height |}
         end.
Proof.
  intros w t g Hm. destruct (advance_local t w) as (Hm' & Hp' & Hs').
  unfold step. cbn [fst snd].
  rewrite handle_gesture_payload.
  match goal with
  | |- context [debouncedUpdate overlay ?u ?w0] =>
      destruct (debouncedUpdate_local u w0) as (_ & -> & ->)
  end.
  destruct g; cbn [setPosition setSize position size]; auto.
Qed.

Lemma draft_size_step w t g :
  mounted w = true ->
  mounted (step overlay (t, Gest g) w) = true
  /\ size (step overlay (t, Gest g) w)
     = match g with
       | DragStop _ _ => size w
       | ResizeStop width height _ _ =>
           {| size_width := width; size_height := height |}
       end.
Proof.
  intros Hm. destruct (advance_local t w) as (Hm' & Hp' & Hs').
  unfold step. cbn [fst snd].
  rewrite handle_gesture_payload.
  match goal with
  | |- context [debouncedUpdate overlay ?u ?w0] =>
      destruct (debouncedUpdate_local u w0) as (-> & _ & ->)
  end.
  destruct g; cbn [setPosition setSize mounted size]; split; congruence.
Qed.

(** X8.  A resize followed within 500 ms by a drag writes the position of
    the drag only: the one [onUpdate] call carries no width and no height,
    although the box shows the new size. *)
Theorem resize_then_drag_drops_size :
  forall (w : World) (t0 t1 T width height x y x' y' : Z),
    quiescent w = true ->
    now w <= t0 ->
    t0 <= t1 ->
    t1 - t0 < DEBOUNCE_DELAY ->
    t1 + DEBOUNCE_DELAY <= T ->
    persisted
      (advance T
         (exec overlay
            (gestures [(t0, ResizeStop width height x y); (t1, DragStop x' y')]) w))
    = persisted w
      ++ [{| at_time := t1 + DEBOUNCE_DELAY; target := overlay_id overlay;
             fields := {| upd_x := Some x'; upd_y := Some y';
                          upd_width := None; upd_height := None |} |}]
    /\ size
         (advance T
            (exec overlay
               (gestures [(t0, ResizeStop width height x y); (t1, DragStop x' y')]) w))
       = {| size_width := width; size_height := height |}.
Proof.
  intros w t0 t1 T width height x y x' y' Hq Hnow Hle Hlt HT.
  destruct (step_from_quiescent overlay w t0 (ResizeStop width height x y) Hq Hnow)
    as (HP & Hps & _).
  destruct (step_pending overlay _ _ _ _ t1 (DragStop x' y') HP Hle Hlt)
    as (HP' & Hps' & _).
  change (exec overlay
            (gestures [(t0, ResizeStop width height x y); (t1, DragStop x' y')]) w)
    with (step overlay (t1, Gest (DragStop x' y'))
            (step overlay (t0, Gest (ResizeStop width height x y)) w)).
  destruct (advance_pending_fires overlay _ _ _ _ T HP' HT) as (Hfire & _).
  split.
  - rewrite Hfire, Hps', Hps. reflexivity.
  - destruct (advance_local T
                (step overlay (t1, Gest (DragStop x' y'))
                   (step overlay (t0, Gest (ResizeStop width height x y)) w)))
      as (_ & _ & ->).
    assert (Hm : mounted w = true).
    { unfold quiescent in Hq. destruct (mounted w); [reflexivity | discriminate]. }
    destruct (draft_size_step w t0 (ResizeStop width height x y) Hm) as (Hm1 & Hs1).
    destruct (draft_size_step _ t1 (DragStop x' y') Hm1) as (_ & Hs2).
    rewrite Hs2, Hs1. reflexivity.
Qed.

End Writes.

Lemma spaced_updates_each_persisted_witness :
  persisted
    (advance 2000
       (exec sample_overlay
          (gestures [(0, DragStop 1 1); (500, ResizeStop 40 30 2 2);
                     (1400, DragStop 3 3)])
          (mount sample_overlay)))
  = persisted (mount sample_overlay)
    ++ map (persist_of sample_overlay)
         [(0, DragStop 1 1); (500, ResizeStop 40 30 2 2); (1400, DragStop 3 3)].
Proof.
  exact (proj1 (spaced_updates_each_persisted sample_overlay
                  (mount sample_overlay) 0 (DragStop 1 1)
                  [(500, ResizeStop 40 30 2 2); (1400, DragStop 3 3)] 2000
                  eq_refl (Z.le_refl 0) eq_refl ltac:(discriminate))).
Defined.

Lemma draft_follows_gesture_witness :
  position (step sample_overlay (100, Gest (DragStop 7 9)) (mount sample_overlay))
  = {| pos_x := 7; pos_y := 9 |}.
Proof.
  exact (proj1 (draft_follows_gesture sample_overlay (mount sample_overlay) 100
                  (DragStop 7 9) eq_refl)).
Defined.

Lemma resize_then_drag_drops_size_witness :
  persisted
    (advance 1000
       (exec sample_overlay
          (gestures [(0, ResizeStop 40 30 2 2); (300, DragStop 5 6)])
          (mount sample_overlay)))
  = [{| at_time := 800; target := "65a5"; fields := payload (DragStop 5 6) |}].
Proof.
  exact (proj1 (resize_then_drag_drops_size sample_overlay (mount sample_overlay)
                  0 300 1000 40 30 2 2 5 6
                  eq_refl (Z.le_refl 0) ltac:(discriminate) eq_refl
                  ltac:(discriminate))).
Defined.

End OverlayBox.

(* ===================================================================== *)
(** ** Instrumented resources: who is alive after a sequence of calls *)
(* ===================================================================== *)

Module Ledger.
Open Scope list_scope.

(** What a recorded call does to a resource: creates it, ends it, or
    neither. *)
Inductive Op :=
| Born (i : nat)
| Died (i : nat)
| Neutral.

Definition apply_op (op : Op) (live : list nat) : list nat :=
  match op with
  | Born i => i :: live
  | Died i => remove Nat.eq_dec i live
  | Neutral => live
  end.

Lemma remove_single i : remove Nat.eq_dec i [i] = [].
Proof. simpl. destruct (Nat.eq_dec i i); [reflexivity | contradiction]. Qed.

Section Log.
Variable A : Type.
Variable kind : A -> Op.

(** The resources alive after the calls [acts], starting from [live]. *)
Definition replay (acts : list A) (live : list nat) : list nat :=
  fold_left (fun l a => apply_op (kind a) l) acts live.

Definition live_after (log : list A) : list nat := replay log [].

(** At every instant of the log, at most one resource is alive. *)
Definition never_layered (log : list A) : Prop :=
  forall p q, log = p ++ q -> (List.length (live_after p) <= 1)%nat.

(** Every creation happens while nothing is alive. *)
Definition born_alone (log : list A) : Prop :=
  forall p a q i, log = p ++ a :: q -> kind a = Born i -> live_after p = [].

(** The same two checks, run along [acts] from a given set of resources. *)
Fixpoint bounded (live : list nat) (acts : list A) : bool :=
  (List.length live <=? 1)%nat &&
  match acts with
  | [] => true
  | a :: r =>
      match kind a, live with
      | Born _, _ :: _ => false
      | _, _ => bounded (apply_op (kind a) live) r
      end
  end.

Lemma replay_app a b live : replay (a ++ b) live = replay b (replay a live).
Proof. unfold replay. apply fold_left_app. Qed.

Lemma bounded_prefix acts :
  forall live, bounded live acts = true ->
  forall p q, acts = p ++ q -> (List.length (replay p live) <= 1)%nat.
Proof.
  induction acts as [|a r IH]; intros live Hb p q Heq.
  - destruct p; [|discriminate]. simpl in *.
    apply andb_prop in Hb as [Hb _]. now apply Nat.leb_le.
  - simpl in Hb. apply andb_prop in Hb as [Hlen Hb]. apply Nat.leb_le in Hlen.
    destruct p as [|a' p]; [exact Hlen|].
    injection Heq as <- Heq. simpl. apply (IH _) with (q := q); [|exact Heq].
    destruct (kind a); try exact Hb. destruct live; [exact Hb | discriminate].
Qed.

Lemma bounded_born acts :
  forall live, bounded live acts = true ->
  forall p a q i, acts = p ++ a :: q -> kind a = Born i -> replay p live = [].
Proof.
  induction acts as [|a r IH]; intros live Hb p a0 q i Heq Hk.
  - destruct p; discriminate.
  - simpl in Hb. apply andb_prop in Hb as [_ Hb].
    destruct p as [|a' p].
    + injection Heq as <- _. rewrite Hk in Hb. simpl.
      destruct live; [reflexivity | discriminate].
    + injection Heq as <- Heq. simpl. apply (IH _) with (a := a0) (q := q) (i := i);
        [|exact Heq | exact Hk].
      destruct (kind a); try exact Hb. destruct live; [exact Hb | discriminate].
Qed.

(** Extending a log that passes both checks by calls that pass them from
    where the log left off. *)
Lemma never_layered_app log acts :
  never_layered log -> bounded (live_after log) acts = true ->
  never_layered (log ++ acts).
Proof.
  intros Hlog Hb p q Heq.
  apply app_eq_app in Heq as [l [[Hp Hq] | [Hp Hq]]].
  - now apply (Hlog p l).
  - subst p. unfold live_after. rewrite replay_app.
    now apply (bounded_prefix acts _ Hb l q).
Qed.

Lemma born_alone_app log acts :
  born_alone log -> bounded (live_after log) acts = true ->
  born_alone (log ++ acts).
Proof.
  intros Hlog Hb p a q i Heq Hk.
  apply app_eq_app in Heq as [l [[Hp Hq] | [Hp Hq]]].
  - destruct l as [|a' l].
    + simpl in Hq. rewrite app_nil_r in Hp. subst p.
      now apply (bounded_born acts _ Hb [] a q i).
    + injection Hq as <- Hq. now apply (Hlog p a l i).
  - subst p. unfold live_after. rewrite replay_app.
    now apply (bounded_born acts _ Hb l a q i).
Qed.

Lemma never_layered_nil : never_layered [].
Proof. intros p q H. destruct p; [simpl; lia | discriminate]. Qed.

Lemma born_alone_nil : born_alone [].
Proof. intros p a q i H. destruct p; discriminate. Qed.

End Log.

Arguments replay {A} kind acts live.
Arguments live_after {A} kind log.
Arguments never_layered {A} kind log.
Arguments born_alone {A} kind log.
Arguments bounded {A} kind live acts.

End Ledger.

(* ===================================================================== *)
(** ** features/rtsp/components: VideoPlayer *)
(* ===================================================================== *)

Module VideoPlayer.
Import JsString.
Open Scope list_scope.

Record PlayerState := {
  isPlaying : bool;
  isMuted : bool;
  isLoading : bool;
  hasError : bool
}.

Definition INITIAL_PLAYER_STATE : PlayerState :=
  {| isPlaying := false; isMuted := true; isLoading := false; hasError := false |}.

(** [Partial<PlayerState>]: [None] is a key the object literal leaves out. *)
Record PartialPlayerState := {
  set_isPlaying : option bool;
  set_isMuted : option bool;
  set_isLoading : option bool;
  set_hasError : option bool
}.

Definition no_updates : PartialPlayerState :=
  {| set_isPlaying := None; set_isMuted := None;
     set_isLoading := None; set_hasError := None |}.

Definition override (prev : bool) (u : option bool) : bool :=
  match u with
  | Some v => v
  | None => prev
  end.

(** [{ ...prev, ...updates }] *)
Definition spread (prev : PlayerState) (updates : PartialPlayerState)
  : PlayerState :=
  {| isPlaying := override (isPlaying prev) (set_isPlaying updates);
     isMuted := override (isMuted prev) (set_isMuted updates);
     isLoading := override (isLoading prev) (set_isLoading updates);
     hasError := override (hasError prev) (set_hasError updates) |}.

(** [Hls.ErrorTypes] and the part of the error payload the handler reads. *)
Inductive ErrorTypes :=
| NETWORK_ERROR
| MEDIA_ERROR
| KEY_SYSTEM_ERROR
| MUX_ERROR
| OTHER_ERROR.

Record ErrorData := {
  fatal : bool;
  err_type : ErrorTypes;
  details : string
}.

(** Calls on the [Hls] instances, on the [<video>] element and on the
    [onError] prop, as an instrumented run would record them.  An [Hls]
    instance is named by the order of its creation. *)
Inductive Action :=
| HlsNew (i : nat)
| HlsLoadSource (i : nat) (src : string)
| HlsAttachMedia (i : nat)
| HlsStartLoad (i : nat)
| HlsRecoverMediaError (i : nat)
| HlsDestroy (i : nat)
| VideoSetSrc (src : string)
| VideoPlay
| VideoPause
| VideoSetMuted (b : bool)
| OnError (callback : nat) (message : string).

Definition kind (a : Action) : Ledger.Op :=
  match a with
  | HlsNew i => Ledger.Born i
  | HlsDestroy i => Ledger.Died i
  | _ => Ledger.Neutral
  end.

(** The props the player reads; a callback is named by its identity. *)
Record Props := {
  src : option string;
  onError : option nat
}.

(** A component instance: [video] tells whether [videoRef.current] holds
    the element (between mount and unmount); [log] is the record of calls
    made so far, oldest first. *)
Record Component := {
  props : Props;
  video : bool;
  state : PlayerState;
  hlsRef : option nat;
  next_id : nat;
  log : list Action
}.

Definition set_state (s : PlayerState) (c : Component) : Component :=
  {| props := props c; video := video c; state := s; hlsRef := hlsRef c;
     next_id := next_id c; log := log c |}.

Definition set_hlsRef (r : option nat) (c : Component) : Component :=
  {| props := props c; video := video c; state := state c; hlsRef := r;
     next_id := next_id c; log := log c |}.

Definition set_props (p : Props) (c : Component) : Component :=
  {| props := p; video := video c; state := state c; hlsRef := hlsRef c;
     next_id := next_id c; log := log c |}.

Definition set_video (b : bool) (c : Component) : Component :=
  {| props := props c; video := b; state := state c; hlsRef := hlsRef c;
     next_id := next_id c; log := log c |}.

Definition record (acts : list Action) (c : Component) : Component :=
  {| props := props c; video := video c; state := state c; hlsRef := hlsRef c;
     next_id := next_id c; log := log c ++ acts |}.

Definition fresh_instance (c : Component) : nat * Component :=
  (next_id c,
   {| props := props c; video := video c; state := state c; hlsRef := hlsRef c;
      next_id := S (next_id c); log := log c ++ [HlsNew (next_id c)] |}).

(** An instance is alive from [new Hls] to its first [destroy()]; only a
    live instance delivers events to its listeners. *)
Definition alive (c : Component) (i : nat) : bool :=
  existsb (Nat.eqb i) (Ledger.live_after kind (log c)).

(** [setState((prev) => ({ ...prev, ...updates }))] *)
Definition updateState (updates : PartialPlayerState) (c : Component)
  : Component :=
  set_state (spread (state c) updates) c.

Definition destroyHls (c : Component) : Component :=
  match hlsRef c with
  | Some i => set_hlsRef None (record [HlsDestroy i] c)
  | None => c
  end.

(** [!src]: [null] and the empty string are falsy. *)
Definition truthy_src (p : Props) : option string :=
  match src p with
  | Some s => if String.eqb s "" then None else Some s
  | None => None
  end.

Section Browser.
(** [Hls.isSupported()] *)
Variable isSupported : bool.

(** The [MANIFEST_PARSED] listener. *)
Definition on_manifest_parsed (c : Component) : Component :=
  record [VideoPlay]
    (updateState {| set_isPlaying := Some true; set_isMuted := None;
                    set_isLoading := Some false; set_hasError := None |} c).

(** The [.catch] of [video.play()]. *)
Definition on_play_rejected (c : Component) : Component :=
  updateState {| set_isPlaying := Some false; set_isMuted := None;
                 set_isLoading := None; set_hasError := None |} c.

(** The [ERROR] listener of instance [hls]. *)
Definition on_error (hls : nat) (data : ErrorData) (c : Component) : Component :=
  if negb (fatal data) then c
  else
    let c1 := updateState {| set_isPlaying := None; set_isMuted := None;
                             set_isLoading := Some false; set_hasError := None |} c in
    match err_type data with
    | NETWORK_ERROR => record [HlsStartLoad hls] c1
    | MEDIA_ERROR => record [HlsRecoverMediaError hls] c1
    | _ =>
        let c2 := updateState {| set_isPlaying := None; set_isMuted := None;
                                 set_isLoading := None; set_hasError := Some true |} c1 in
        let c3 := match onError (props c) with
                  | Some cb => record [OnError cb ("HLS Error: " ++ details data)%string] c2
                  | None => c2
                  end in
        record [HlsDestroy hls] c3
    end.

Definition initHls (c : Component) : Component :=
  match video c, truthy_src (props c) with
  | true, Some s =>
      let c1 := destroyHls c in
      let c2 := updateState {| set_isPlaying := None; set_isMuted := None;
                               set_isLoading := Some true;
                               set_hasError := Some false |} c1 in
      if isSupported && endsWith s ".m3u8" then
        let (hls, c3) := fresh_instance c2 in
        record [HlsLoadSource hls s; HlsAttachMedia hls] (set_hlsRef (Some hls) c3)
      else
        record [VideoSetSrc s; VideoPlay] c2
  | _, _ => c
  end.

Definition togglePlay (c : Component) : Component :=
  updateState {| set_isPlaying := Some (negb (isPlaying (state c)));
                 set_isMuted := None; set_isLoading := None; set_hasError := None |}
    (record [if isPlaying (state c) then VideoPause else VideoPlay] c).

Definition toggleMute (c : Component) : Component :=
  updateState {| set_isPlaying := None;
                 set_isMuted := Some (negb (isMuted (state c)));
                 set_isLoading := None; set_hasError := None |}
    (record [VideoSetMuted (negb (isMuted (state c)))] c).

Inductive HlsEvent :=
| MANIFEST_PARSED
| ERROR (data : ErrorData).

Inductive VideoEvent := onPlay | onPause | onWaiting | onPlaying.

(** Everything that can happen to the component. *)
Inductive Event :=
| Mount
| Unmount
| Render (p : Props)
| ClickRetry
| ClickTogglePlay
| ClickToggleMute
| Hls (hls : nat) (e : HlsEvent)
| PlayRejected
| Video (e : VideoEvent).

Definition option_eqb {A} (eqb : A -> A -> bool) (a b : option A) : bool :=
  match a, b with
  | Some x, Some y => eqb x y
  | None, None => true
  | _, _ => false
  end.

(** Whether a render leaves the dependencies of the effect as they are. *)
Definition same_props (p q : Props) : bool :=
  option_eqb String.eqb (src p) (src q) && option_eqb Nat.eqb (onError p) (onError q).

Definition on_video_event (e : VideoEvent) (c : Component) : Component :=
  match e with
  | onPlay => updateState {| set_isPlaying := Some true; set_isMuted := None;
                             set_isLoading := None; set_hasError := None |} c
  | onPause => updateState {| set_isPlaying := Some false; set_isMuted := None;
                              set_isLoading := None; set_hasError := None |} c
  | onWaiting => updateState {| set_isPlaying := None; set_isMuted := None;
                                set_isLoading := Some true; set_hasError := None |} c
  | onPlaying => updateState {| set_isPlaying := None; set_isMuted := None;
                                set_isLoading := Some false; set_hasError := None |} c
  end.

(** One event.  The effect [initHls(); return destroyHls] runs on mount and
    again whenever [src] or [onError] change; its cleanup runs before each
    re-run and on unmount.  The handler of the retry button is [initHls]
    itself ([onClick={initHls}]), with no test of [hasError].  An unmounted
    component handles nothing but a mount, which starts from the initial
    state. *)
Definition step (e : Event) (c : Component) : Component :=
  if video c then
    match e with
    | Mount => c
    | Unmount => set_video false (destroyHls c)
    | Render p =>
        if same_props p (props c) then c
        else initHls (set_props p (destroyHls c))
    | ClickRetry => initHls c
    | ClickTogglePlay => togglePlay c
    | ClickToggleMute => toggleMute c
    | Hls hls MANIFEST_PARSED => if alive c hls then on_manifest_parsed c else c
    | Hls hls (ERROR data) => if alive c hls then on_error hls data c else c
    | PlayRejected => on_play_rejected c
    | Video e => on_video_event e c
    end
  else
    match e with
    | Mount =>
        initHls (set_hlsRef None (set_state INITIAL_PLAYER_STATE (set_video true c)))
    | Render p => set_props p c
    | _ => c
    end.

Definition run (es : list Event) (c : Component) : Component :=
  fold_left (fun acc e => step e acc) es c.

(** Before the first mount. *)
Definition unmounted (p : Props) : Component :=
  {| props := p; video := false; state := INITIAL_PLAYER_STATE;
     hlsRef := None; next_id := 0; log := [] |}.

(** How the handler sorts a fault: ignored when the payload is not marked
    fatal, otherwise by type. *)
Inductive FaultClass := Ignored | Network | Media | Fatal.

Definition classify (data : ErrorData) : FaultClass :=
  if negb (fatal data) then Ignored
  else match err_type data with
       | NETWORK_ERROR => Network
       | MEDIA_ERROR => Media
       | _ => Fatal
       end.

(** How often [destroy()], [startLoad()] and [new Hls] were called. *)
Definition destroy_calls (i : nat) (l : list Action) : nat :=
  List.length (filter (fun a => match a with HlsDestroy j => Nat.eqb i j | _ => false end) l).

Definition startLoad_calls (i : nat) (l : list Action) : nat :=
  List.length (filter (fun a => match a with HlsStartLoad j => Nat.eqb i j | _ => false end) l).

Definition instances_created (l : list Action) : nat :=
  List.length (filter (fun a => match a with HlsNew _ => true | _ => false end) l).

End Browser.

Definition hls_props : Props :=
  {| src := Some "http://localhost:5000/stream/index.m3u8"; onError := None |}.

Definition sample_fault (f : bool) (ty : ErrorTypes) : ErrorData :=
  {| fatal := f; err_type := ty; details := "manifestLoadError" |}.

Example mount_attaches :
  log (run true [Mount] (unmounted hls_props))
  = [HlsNew 0; HlsLoadSource 0 "http://localhost:5000/stream/index.m3u8";
     HlsAttachMedia 0].
Proof. reflexivity. Qed.

Example source_change_replaces :
  log (run true [Mount; Render {| src := Some "http://h/other.m3u8"; onError := None |}]
         (unmounted hls_props))
  = [HlsNew 0; HlsLoadSource 0 "http://localhost:5000/stream/index.m3u8";
     HlsAttachMedia 0; HlsDestroy 0;
     HlsNew 1; HlsLoadSource 1 "http://h/other.m3u8"; HlsAttachMedia 1].
Proof. reflexivity. Qed.

Example fatal_then_retry :
  log (run true [Mount; Hls 0 (ERROR (sample_fault true OTHER_ERROR)); ClickRetry]
         (unmounted hls_props))
  = [HlsNew 0; HlsLoadSource 0 "http://localhost:5000/stream/index.m3u8";
     HlsAttachMedia 0; HlsDestroy 0; HlsDestroy 0;
     HlsNew 1; HlsLoadSource 1 "http://localhost:5000/stream/index.m3u8";
     HlsAttachMedia 1].
Proof. reflexivity. Qed.

(** *** One pipeline at a time *)

Section Sessions.
Variable isSupported : bool.

Local Abbreviation live c := (Ledger.live_after kind (log c)).

(** What every reachable component satisfies. *)
Record Inv (c : Component) : Prop := {
  inv_layered : Ledger.never_layered kind (log c);
  inv_born : Ledger.born_alone kind (log c);
  inv_shape : live c = [] \/ exists i, live c = [i] /\ hlsRef c = Some i;
  inv_ref : forall i, hlsRef c = Some i -> i < next_id c;
  inv_destroyed : forall i, In (HlsDestroy i) (log c) -> i < next_id c;
  inv_intact : forall i, In i (live c) -> destroy_calls i (log c) = 0;
  inv_unmounted : video c = false -> live c = []
}.

Lemma live_record acts c :
  live (record acts c) = Ledger.replay kind acts (live c).
Proof. unfold record, Ledger.live_after. simpl. apply Ledger.replay_app. Qed.

Lemma destroy_calls_app i l1 l2 :
  destroy_calls i (l1 ++ l2) = destroy_calls i l1 + destroy_calls i l2.
Proof. unfold destroy_calls. now rewrite filter_app, length_app. Qed.

Lemma destroy_calls_none i l :
  (forall j, In (HlsDestroy j) l -> j <> i) -> destroy_calls i l = 0.
Proof.
  unfold destroy_calls. induction l as [|a l IH]; intros H; [reflexivity|].
  simpl. destruct a; try (apply IH; intros j Hj; apply H; now right).
  destruct (Nat.eqb_spec i i0) as [->|Hne].
  - exfalso. apply (H i0); [now left | reflexivity].
  - apply IH. intros j Hj. apply H. now right.
Qed.

(** Calls that neither create nor destroy an instance. *)
Definition neutral (acts : list Action) : bool :=
  forallb (fun a => match kind a with Ledger.Neutral => true | _ => false end) acts.

Lemma replay_neutral acts :
  neutral acts = true -> forall l, Ledger.replay kind acts l = l.
Proof.
  induction acts as [|a r IH]; intros H l; [reflexivity|].
  simpl in H. apply andb_prop in H as [Ha Hr].
  simpl. destruct (kind a); try discriminate. simpl. now apply IH.
Qed.

Lemma bounded_neutral acts :
  neutral acts = true ->
  forall l, (List.length l <= 1)%nat -> Ledger.bounded kind l acts = true.
Proof.
  induction acts as [|a r IH]; intros H l Hl; simpl.
  - rewrite andb_true_r. now apply Nat.leb_le.
  - simpl in H. apply andb_prop in H as [Ha Hr].
    apply andb_true_intro. split; [now apply Nat.leb_le|].
    destruct (kind a); try discriminate. simpl. now apply IH.
Qed.

Lemma neutral_no_destroy acts i :
  neutral acts = true -> ~ In (HlsDestroy i) acts.
Proof.
  induction acts as [|a r IH]; intros H Hin; [destruct Hin|].
  destruct Hin as [Hin|Hin].
  - subst a. discriminate.
  - simpl in H. apply andb_prop in H as [_ Hr]. now apply IH.
Qed.

Lemma shape_length c :
  (live c = [] \/ exists i, live c = [i] /\ hlsRef c = Some i) ->
  (List.length (live c) <= 1)%nat.
Proof. intros [-> | (i & -> & _)]; simpl; lia. Qed.

Lemma Inv_record_neutral acts c :
  neutral acts = true -> Inv c -> Inv (record acts c).
Proof.
  intros Hn HI. destruct HI.
  assert (Hlive : live (record acts c) = live c)
    by (rewrite live_record; now apply replay_neutral).
  assert (Hb : Ledger.bounded kind (live c) acts = true)
    by (apply bounded_neutral; [exact Hn | now apply shape_length]).
  constructor.
  - now apply Ledger.never_layered_app.
  - now apply Ledger.born_alone_app.
  - rewrite Hlive. exact inv_shape0.
  - exact inv_ref0.
  - intros i Hin. apply in_app_or in Hin as [Hin|Hin]; [now apply inv_destroyed0|].
    now apply neutral_no_destroy in Hin.
  - intros i Hin. rewrite Hlive in Hin. cbn [record log].
    rewrite destroy_calls_app, (inv_intact0 i Hin).
    apply destroy_calls_none. intros j Hj. now apply neutral_no_destroy in Hj.
  - intros Hv. rewrite Hlive. now apply inv_unmounted0.
Qed.

(** After [destroyHls] nothing is alive and the ref is empty. *)
Lemma Inv_destroyHls c :
  Inv c ->
  Inv (destroyHls c) /\ live (destroyHls c) = [] /\ hlsRef (destroyHls c) = None
  /\ next_id (destroyHls c) = next_id c.
Proof.
  intros HI. pose proof HI as HI'. destruct HI'. unfold destroyHls.
  destruct (hlsRef c) as [i|] eqn:Href.
  - assert (Hlive : live (set_hlsRef None (record [HlsDestroy i] c)) = []).
    { change (live (set_hlsRef None (record [HlsDestroy i] c)))
        with (live (record [HlsDestroy i] c)).
      rewrite live_record. simpl.
      destruct inv_shape0 as [-> | (j & -> & Hj)]; [reflexivity|].
      assert (j = i) by congruence. subst j. apply Ledger.remove_single. }
    assert (Hb : Ledger.bounded kind (live c) [HlsDestroy i] = true).
    { destruct inv_shape0 as [-> | (j & -> & Hj)]; [reflexivity|].
      assert (j = i) by congruence. subst j. simpl.
      destruct (Nat.eq_dec i i); [reflexivity | contradiction]. }
    split; [|auto]. constructor.
    + now apply Ledger.never_layered_app.
    + now apply Ledger.born_alone_app.
    + left. exact Hlive.
    + discriminate.
    + intros j Hin. apply in_app_or in Hin as [Hin | [Heq | []]].
      * now apply inv_destroyed0.
      * injection Heq as <-. now apply inv_ref0.
    + rewrite Hlive. intros j [].
    + intros _. exact Hlive.
  - destruct inv_shape0 as [Hl | (j & _ & Hj)]; [|congruence].
    split; [exact HI | auto].
Qed.

(** [initHls] keeps the invariant, whether it runs or returns early. *)
Lemma Inv_initHls c : Inv c -> Inv (initHls isSupported c).
Proof.
  intros HI. unfold initHls.
  destruct (video c) eqn:Hv; [|exact HI].
  destruct (truthy_src (props c)) as [s|]; [|exact HI].
  destruct (Inv_destroyHls c HI) as (HD & Hlive & Href & Hnext).
  set (c1 := destroyHls c) in *.
  set (u := {| set_isPlaying := None; set_isMuted := None;
               set_isLoading := Some true; set_hasError := Some false |}).
  assert (H2 : Inv (updateState u c1)) by (destruct HD; constructor; assumption).
  destruct (isSupported && endsWith s ".m3u8").
  - unfold fresh_instance.
    cbn [next_id updateState set_state].
    apply (Inv_record_neutral [HlsLoadSource (next_id c1) s; HlsAttachMedia (next_id c1)]);
      [reflexivity|].
    destruct HD.
    assert (Hl : Ledger.live_after kind (log c1 ++ [HlsNew (next_id c1)])
                 = [next_id c1]).
    { unfold Ledger.live_after. rewrite Ledger.replay_app.
      fold (Ledger.live_after kind (log c1)). rewrite Hlive. reflexivity. }
    assert (Hb : Ledger.bounded kind (live c1) [HlsNew (next_id c1)] = true)
      by (rewrite Hlive; reflexivity).
    constructor; cbn [log hlsRef next_id set_hlsRef video props updateState set_state].
    + now apply Ledger.never_layered_app.
    + now apply Ledger.born_alone_app.
    + right. exists (next_id c1). split; [exact Hl | reflexivity].
    + intros i [= <-]. lia.
    + intros i Hin. apply in_app_or in Hin as [Hin | [Heq | []]].
      * specialize (inv_destroyed0 i Hin). lia.
      * discriminate.
    + intros i Hin. rewrite Hl in Hin. destruct Hin as [<- | []].
      apply destroy_calls_none. intros j Hj Heq. subst j.
      apply in_app_or in Hj as [Hj | [Heq | []]]; [|discriminate].
      specialize (inv_destroyed0 _ Hj). lia.
    + intros Hv'. unfold c1 in Hv'. unfold destroyHls in Hv'.
      destruct (hlsRef c); simpl in Hv'; congruence.
  - apply Inv_record_neutral; [reflexivity | exact H2].
Qed.

(** A live instance is the one the ref holds. *)
Lemma alive_current c i :
  Inv c -> alive c i = true -> live c = [i] /\ hlsRef c = Some i.
Proof.
  intros HI Ha. unfold alive in Ha. apply existsb_exists in Ha as (j & Hin & Hj).
  apply Nat.eqb_eq in Hj. subst j.
  destruct (inv_shape c HI) as [Hl | (k & Hl & Hk)]; rewrite Hl in Hin.
  - destruct Hin.
  - destruct Hin as [<- | []]. auto.
Qed.

(** Updates of [state] and [props] do not touch what [Inv] speaks of. *)
Ltac inv_same H := destruct H; constructor; assumption.

Lemma Inv_updateState u c : Inv c -> Inv (updateState u c).
Proof. intros H. inv_same H. Qed.

Lemma Inv_set_props p c : Inv c -> Inv (set_props p c).
Proof. intros H. inv_same H. Qed.

(** [hls.destroy()] on the instance the ref holds, the ref left as it is. *)
Lemma Inv_record_destroy c i :
  Inv c -> hlsRef c = Some i ->
  Inv (record [HlsDestroy i] c) /\ live (record [HlsDestroy i] c) = [].
Proof.
  intros HI Href. destruct HI.
  assert (Hlive : live (record [HlsDestroy i] c) = []).
  { rewrite live_record. simpl.
    destruct inv_shape0 as [-> | (j & -> & Hj)]; [reflexivity|].
    assert (j = i) by congruence. subst j. apply Ledger.remove_single. }
  assert (Hb : Ledger.bounded kind (live c) [HlsDestroy i] = true).
  { destruct inv_shape0 as [-> | (j & -> & Hj)]; [reflexivity|].
    assert (j = i) by congruence. subst j. simpl.
    destruct (Nat.eq_dec i i); [reflexivity | contradiction]. }
  split; [|exact Hlive]. constructor.
  - now apply Ledger.never_layered_app.
  - now apply Ledger.born_alone_app.
  - left. exact Hlive.
  - exact inv_ref0.
  - intros j Hin. apply in_app_or in Hin as [Hin | [Heq | []]].
    + now apply inv_destroyed0.
    + injection Heq as <-. now apply inv_ref0.
  - rewrite Hlive. intros j [].
  - intros _. exact Hlive.
Qed.

Lemma Inv_on_error hls data c :
  Inv c -> alive c hls = true -> Inv (on_error hls data c).
Proof.
  intros HI Ha. destruct (alive_current c hls HI Ha) as (Hl & Href).
  unfold on_error. destruct (fatal data); [|exact HI]. cbn [negb].
  set (c1 := updateState _ c).
  assert (H1 : Inv c1) by now apply Inv_updateState.
  assert (Hfatal : Inv (record [HlsDestroy hls]
             match onError (props c) with
             | Some cb =>
                 record [OnError cb ("HLS Error: " ++ details data)%string]
                   (updateState {| set_isPlaying := None; set_isMuted := None;
                                   set_isLoading := None;
                                   set_hasError := Some true |} c1)
             | None =>
                 updateState {| set_isPlaying := None; set_isMuted := None;
                                set_isLoading := None;
                                set_hasError := Some true |} c1
             end)).
  { destruct (onError (props c)) as [cb|].
    - apply Inv_record_destroy; [|exact Href].
      apply Inv_record_neutral; [reflexivity|]. now apply Inv_updateState.
    - apply Inv_record_destroy; [|exact Href]. now apply Inv_updateState. }
  destruct (err_type data); try exact Hfatal;
    (apply Inv_record_neutral; [reflexivity | exact H1]).
Qed.

Lemma Inv_step e c : Inv c -> Inv (step isSupported e c).
Proof.
  intros HI. unfold step. destruct (video c) eqn:Hv.
  - destruct e as [| | p | | | | hls [|data] | | ve]; trivial.
    + destruct (Inv_destroyHls c HI) as (HD & Hlive & _).
      destruct HD. constructor; trivial.
    + destruct (same_props p (props c)); [exact HI|].
      apply Inv_initHls, Inv_set_props. now apply Inv_destroyHls.
    + now apply Inv_initHls.
    + unfold togglePlay. apply Inv_updateState, Inv_record_neutral; [|exact HI].
      destruct (isPlaying (state c)); reflexivity.
    + unfold toggleMute. apply Inv_updateState, Inv_record_neutral; [|exact HI].
      reflexivity.
    + destruct (alive c hls); [|exact HI].
      unfold on_manifest_parsed. apply Inv_record_neutral; [reflexivity|].
      now apply Inv_updateState.
    + destruct (alive c hls) eqn:Ha; [|exact HI]. now apply Inv_on_error.
    + now apply Inv_updateState.
    + destruct ve; now apply Inv_updateState.
  - destruct e as [| | p | | | | hls he | | ve]; trivial.
    + apply Inv_initHls. pose proof (inv_unmounted c HI Hv) as Hl.
      destruct HI. constructor; cbn; trivial.
      * now left.
      * discriminate.
    + now apply Inv_set_props.
Qed.

Lemma Inv_unmounted p : Inv (unmounted p).
Proof.
  constructor; simpl.
  - apply Ledger.never_layered_nil.
  - apply Ledger.born_alone_nil.
  - now left.
  - discriminate.
  - intros i [].
  - intros i [].
  - reflexivity.
Qed.

Lemma Inv_run es : forall c, Inv c -> Inv (run isSupported es c).
Proof.
  induction es as [|e es IH]; intros c HI; [exact HI|].
  simpl. apply IH. now apply Inv_step.
Qed.

(** The order of the calls when [initHls] replaces a session. *)
Lemma initHls_replaces c i s :
  video c = true -> truthy_src (props c) = Some s -> hlsRef c = Some i ->
  isSupported && endsWith s ".m3u8" = true ->
  log (initHls isSupported c)
  = log c ++ [HlsDestroy i; HlsNew (next_id c); HlsLoadSource (next_id c) s;
              HlsAttachMedia (next_id c)]
  /\ hlsRef (initHls isSupported c) = Some (next_id c).
Proof.
  intros Hv Hs Hr Hp. unfold initHls, destroyHls. rewrite Hv, Hs, Hr, Hp.
  cbn. rewrite <- !app_assoc. auto.
Qed.

(** *** State updates *)

(** C9.  [updateState(updates)] gives each field named in [updates] its new
    value and leaves every other field of [PlayerState], and everything else
    the component holds, as it was. *)
Theorem updateState_frame :
  forall (updates : PartialPlayerState) (c : Component),
    isPlaying (state (updateState updates c))
    = match set_isPlaying updates with
      | Some v => v
      | None => isPlaying (state c)
      end
    /\ isMuted (state (updateState updates c))
       = match set_isMuted updates with
         | Some v => v
         | None => isMuted (state c)
         end
    /\ isLoading (state (updateState updates c))
       = match set_isLoading updates with
         | Some v => v
         | None => isLoading (state c)
         end
    /\ hasError (state (updateState updates c))
       = match set_hasError updates with
         | Some v => v
         | None => hasError (state c)
         end
    /\ props (updateState updates c) = props c
    /\ video (updateState updates c) = video c
    /\ hlsRef (updateState updates c) = hlsRef c
    /\ next_id (updateState updates c) = next_id c
    /\ log (updateState updates c) = log c.
Proof. intros updates c. repeat split. Qed.

(** *** Readiness and autoplay *)

Lemma alive_record_neutral acts c i :
  neutral acts = true -> alive (record acts c) i = alive c i.
Proof.
  intros H. unfold alive. rewrite live_record, replay_neutral by exact H.
  reflexivity.
Qed.

(** C7.  When the manifest of the live instance is parsed, the player sets
    [isPlaying] (and clears [isLoading]) and calls [video.play()]; if that
    promise is then rejected, [isPlaying] becomes false while [hasError] and
    the other flags stay as they were, nothing is called on the pipeline, and
    the instance is still alive and attached. *)
Theorem autoplay_rejection_is_not_a_fault :
  forall (c : Component) (hls : nat),
    video c = true ->
    alive c hls = true ->
    let c1 := step isSupported (Hls hls MANIFEST_PARSED) c in
    let c2 := step isSupported PlayRejected c1 in
    (isPlaying (state c1) = true
     /\ isLoading (state c1) = false
     /\ log c1 = log c ++ [VideoPlay])
    /\ (isPlaying (state c2) = false
        /\ hasError (state c2) = hasError (state c)
        /\ isMuted (state c2) = isMuted (state c)
        /\ isLoading (state c2) = false
        /\ log c2 = log c1
        /\ hlsRef c2 = hlsRef c
        /\ alive c2 hls = true).
Proof.
  intros c hls Hv Ha c1 c2.
  assert (E1 : c1 = on_manifest_parsed c)
    by (unfold c1, step; rewrite Hv, Ha; reflexivity).
  assert (E2 : c2 = on_play_rejected c1).
  { unfold c2, step. rewrite E1. cbn [video on_manifest_parsed record updateState
                                       set_state]. now rewrite Hv. }
  rewrite E2, E1. split; [repeat split|]. repeat split.
  change (alive (record [VideoPlay] c) hls = true).
  rewrite alive_record_neutral by reflexivity. exact Ha.
Qed.

(** *** Faults *)

(** The calls made on [Hls] instances, among all recorded calls. *)
Definition hls_calls (l : list Action) : list Action :=
  filter (fun a => match a with
                   | HlsNew _ | HlsLoadSource _ _ | HlsAttachMedia _
                   | HlsStartLoad _ | HlsRecoverMediaError _ | HlsDestroy _ => true
                   | _ => false
                   end) l.

(** Events that are neither the retry button nor the parent mounting,
    unmounting or re-rendering the player. *)
Definition passive (e : Event) : bool :=
  match e with
  | ClickRetry | Mount | Unmount | Render _ => false
  | _ => true
  end.

Lemma on_error_not_fatal hls data c :
  fatal data = false -> on_error hls data c = c.
Proof. intros H. unfold on_error. now rewrite H. Qed.

Lemma step_error_alive c hls data :
  video c = true -> alive c hls = true ->
  step isSupported (Hls hls (ERROR data)) c = on_error hls data c.
Proof. intros Hv Ha. unfold step. now rewrite Hv, Ha. Qed.

(** C2 (amended).  A network fault reported by the live instance never
    tears the pipeline down and never changes [hasError], [isPlaying] or
    [isMuted].  When the payload is not marked fatal the handler returns at
    once and nothing changes at all; when it is marked fatal the handler
    calls [startLoad()] once and clears [isLoading]. *)
Theorem network_fault_recovery :
  forall (c : Component) (hls : nat) (data : ErrorData),
    video c = true ->
    alive c hls = true ->
    err_type data = NETWORK_ERROR ->
    let c' := step isSupported (Hls hls (ERROR data)) c in
    (forall j, destroy_calls j (log c') = destroy_calls j (log c))
    /\ instances_created (log c') = instances_created (log c)
    /\ alive c' hls = true
    /\ hlsRef c' = hlsRef c
    /\ hasError (state c') = hasError (state c)
    /\ isPlaying (state c') = isPlaying (state c)
    /\ isMuted (state c') = isMuted (state c)
    /\ (fatal data = false -> c' = c)
    /\ (fatal data = true ->
        log c' = log c ++ [HlsStartLoad hls] /\ isLoading (state c') = false).
Proof.
  intros c hls data Hv Ha Hty c'.
  assert (E : c' = on_error hls data c) by now apply step_error_alive.
  rewrite E. clear E c'. unfold on_error. rewrite Hty.
  destruct (fatal data); cbn [negb].
  - repeat split; try discriminate.
    + intros j. cbn [log record updateState set_state].
      rewrite destroy_calls_app. cbn. lia.
    + cbn [log record updateState set_state].
      unfold instances_created. rewrite filter_app, length_app. cbn. lia.
    + rewrite alive_record_neutral by reflexivity. exact Ha.
  - repeat split; trivial; discriminate.
Qed.

(** A pipeline that is dead stays dead, and nothing is called on any
    pipeline, whatever passive events follow. *)
Lemma passive_step_idle e c :
  video c = true -> live c = [] -> passive e = true ->
  (video (step isSupported e c) = true
   /\ live (step isSupported e c) = []
   /\ hlsRef (step isSupported e c) = hlsRef c
   /\ props (step isSupported e c) = props c
   /\ next_id (step isSupported e c) = next_id c)
  /\ hls_calls (log (step isSupported e c)) = hls_calls (log c)
  /\ hasError (state (step isSupported e c)) = hasError (state c).
Proof.
  intros Hv Hl Hp. unfold step. rewrite Hv.
  assert (Hdead : forall i, alive c i = false)
    by (intros i; unfold alive; now rewrite Hl).
  assert (Hrec : forall acts u,
             neutral acts = true -> hls_calls acts = [] ->
             set_hasError u = None ->
             (video (updateState u (record acts c)) = true
              /\ live (updateState u (record acts c)) = []
              /\ hlsRef (updateState u (record acts c)) = hlsRef c
              /\ props (updateState u (record acts c)) = props c
              /\ next_id (updateState u (record acts c)) = next_id c)
             /\ hls_calls (log (updateState u (record acts c))) = hls_calls (log c)
             /\ hasError (state (updateState u (record acts c)))
                = hasError (state c)).
  { intros acts u Hn Hh Hu. split; [|split].
    - split; [exact Hv|]. split; [|auto].
      change (live (record acts c) = []).
      rewrite live_record, replay_neutral by exact Hn. exact Hl.
    - cbn. unfold hls_calls in *. now rewrite filter_app, Hh, app_nil_r.
    - cbn. now rewrite Hu. }
  assert (Hupd : forall u,
             set_hasError u = None ->
             (video (updateState u c) = true
              /\ live (updateState u c) = []
              /\ hlsRef (updateState u c) = hlsRef c
              /\ props (updateState u c) = props c
              /\ next_id (updateState u c) = next_id c)
             /\ hls_calls (log (updateState u c)) = hls_calls (log c)
             /\ hasError (state (updateState u c)) = hasError (state c)).
  { intros u Hu. split; [auto|]. split; [reflexivity|]. cbn. now rewrite Hu. }
  destruct e as [| | p | | | | hls [|data] | | ve]; try discriminate.
  - unfold togglePlay. apply Hrec; destruct (isPlaying (state c)); reflexivity.
  - unfold toggleMute. apply Hrec; reflexivity.
  - rewrite Hdead. auto 8.
  - rewrite Hdead. auto 8.
  - now apply Hupd.
  - destruct ve; now apply Hupd.
Qed.

Lemma passive_run_idle es :
  forall c,
    video c = true -> live c = [] -> forallb passive es = true ->
    (video (run isSupported es c) = true
     /\ live (run isSupported es c) = []
     /\ hlsRef (run isSupported es c) = hlsRef c
     /\ props (run isSupported es c) = props c
     /\ next_id (run isSupported es c) = next_id c)
    /\ hls_calls (log (run isSupported es c)) = hls_calls (log c)
    /\ hasError (state (run isSupported es c)) = hasError (state c).
Proof.
  induction es as [|e es IH]; intros c Hv Hl Hp; [auto 8|].
  simpl in Hp. apply andb_prop in Hp as [He Hes].
  destruct (passive_step_idle e c Hv Hl He)
    as ((Hv' & Hl' & Hr' & Hp' & Hn') & Hc' & Hh').
  destruct (IH _ Hv' Hl' Hes) as ((Hv2 & Hl2 & Hr2 & Hp2 & Hn2) & Hc2 & Hh2).
  simpl. repeat split; congruence.
Qed.

(** The ref only ever holds an instance created for the current props, and
    holds nothing while the component is unmounted. *)
Definition Playable (c : Component) : Prop :=
  (forall i, hlsRef c = Some i ->
             exists s, truthy_src (props c) = Some s
                       /\ isSupported && endsWith s ".m3u8" = true)
  /\ (video c = false -> hlsRef c = None).

Lemma hlsRef_destroyHls c : hlsRef (destroyHls c) = None.
Proof. unfold destroyHls. destruct (hlsRef c) eqn:H; [reflexivity | exact H]. Qed.

Lemma video_destroyHls c : video (destroyHls c) = video c.
Proof. unfold destroyHls. destruct (hlsRef c); reflexivity. Qed.

Lemma props_destroyHls c : props (destroyHls c) = props c.
Proof. unfold destroyHls. destruct (hlsRef c); reflexivity. Qed.

Lemma Playable_no_ref c :
  hlsRef c = None -> Playable c.
Proof. intros H. split; [intros i Hi; congruence | auto]. Qed.

Lemma Playable_initHls c :
  Playable c -> video c = true -> Playable (initHls isSupported c).
Proof.
  intros HP Hv. unfold initHls. rewrite Hv.
  destruct (truthy_src (props c)) as [s|] eqn:Hs; [|exact HP].
  destruct (isSupported && endsWith s ".m3u8") eqn:Hplay.
  - split.
    + intros i _. exists s. cbn. rewrite props_destroyHls. auto.
    + cbn. rewrite video_destroyHls. congruence.
  - apply Playable_no_ref. cbn. apply hlsRef_destroyHls.
Qed.

Lemma Playable_on_error hls data c : Playable c -> Playable (on_error hls data c).
Proof.
  intros HP. unfold on_error. destruct (fatal data); [|exact HP]. cbn [negb].
  destruct (err_type data); try exact HP; destruct (onError (props c)); exact HP.
Qed.

Lemma Playable_step e c : Playable c -> Playable (step isSupported e c).
Proof.
  intros HP. unfold step. destruct (video c) eqn:Hv.
  - destruct e as [| | p | | | | hls [|data] | | ve]; trivial.
    + apply Playable_no_ref. cbn. apply hlsRef_destroyHls.
    + destruct (same_props p (props c)); [exact HP|].
      apply Playable_initHls.
      * apply Playable_no_ref. cbn. apply hlsRef_destroyHls.
      * cbn. now rewrite video_destroyHls.
    + now apply Playable_initHls.
    + destruct (alive c hls); exact HP.
    + destruct (alive c hls); [now apply Playable_on_error | exact HP].
    + destruct ve; exact HP.
  - destruct e as [| | p | | | | hls he | | ve]; trivial.
    + apply Playable_initHls; [|reflexivity]. now apply Playable_no_ref.
    + destruct HP as (_ & Hnone). apply Playable_no_ref. cbn. auto.
Qed.

Lemma Playable_run es : forall c, Playable c -> Playable (run isSupported es c).
Proof.
  induction es as [|e es IH]; intros c HP; [exact HP|].
  simpl. apply IH. now apply Playable_step.
Qed.

(** C4.  In every run of the component, from before its first mount and
    through any events: at every instant of the record of calls at most one
    [Hls] instance is alive, and each [new Hls] is made at an instant when no
    instance is alive.  Attaching over a session that is active replaces it:
    whenever an instance [i] is alive, [initHls] -- which is what the retry
    button calls -- first calls [destroy()] on [i] and only then creates,
    loads and attaches the next instance, after which [i] is dead and the
    new instance is the only one alive.  The first attach, on mount with an
    [.m3u8] source where [Hls] is supported, creates the first instance with
    no [destroy()] before it. *)
Theorem sessions_never_layered :
  forall (p : Props) (es : list Event),
    let c := run isSupported es (unmounted p) in
    Ledger.never_layered kind (log c)
    /\ Ledger.born_alone kind (log c)
    /\ (forall i,
          alive c i = true ->
          step isSupported ClickRetry c = initHls isSupported c
          /\ exists s,
               truthy_src (props c) = Some s
               /\ log (initHls isSupported c)
                  = log c ++ [HlsDestroy i; HlsNew (next_id c);
                              HlsLoadSource (next_id c) s;
                              HlsAttachMedia (next_id c)]
               /\ alive (initHls isSupported c) i = false
               /\ (forall j, alive (initHls isSupported c) j
                             = Nat.eqb j (next_id c)))
    /\ (forall s,
          truthy_src p = Some s ->
          isSupported && endsWith s ".m3u8" = true ->
          log (step isSupported Mount (unmounted p))
          = [HlsNew 0; HlsLoadSource 0 s; HlsAttachMedia 0]
          /\ alive (step isSupported Mount (unmounted p)) 0 = true).
Proof.
  intros p es c.
  assert (HI : Inv c) by apply Inv_run, Inv_unmounted.
  assert (HP : Playable c)
    by (apply Playable_run, Playable_no_ref; reflexivity).
  split; [apply (inv_layered c HI)|]. split; [apply (inv_born c HI)|]. split.
  - intros i Ha.
    destruct (alive_current c i HI Ha) as (Hl & Href).
    assert (Hv : video c = true).
    { destruct (video c) eqn:Hvc; [reflexivity|].
      rewrite (inv_unmounted c HI Hvc) in Hl. discriminate. }
    split; [unfold step; now rewrite Hv|].
    destruct HP as (Hplay & _). destruct (Hplay i Href) as (s & Hs & Hok).
    destruct (initHls_replaces c i s Hv Hs Href Hok) as (Hlog & _).
    exists s. split; [exact Hs|]. split; [exact Hlog|].
    assert (Hlive : live (initHls isSupported c) = [next_id c]).
    { rewrite Hlog. unfold Ledger.live_after. rewrite Ledger.replay_app.
      fold (Ledger.live_after kind (log c)). rewrite Hl. simpl.
      destruct (Nat.eq_dec i i); [reflexivity | contradiction]. }
    assert (Hall : forall j, alive (initHls isSupported c) j = Nat.eqb j (next_id c)).
    { intros j. unfold alive. rewrite Hlive. simpl. apply orb_false_r. }
    split; [|exact Hall].
    rewrite Hall. apply Nat.eqb_neq. pose proof (inv_ref c HI i Href). lia.
  - intros s Hs Hok.
    assert (Hlog : log (step isSupported Mount (unmounted p))
                   = [HlsNew 0; HlsLoadSource 0 s; HlsAttachMedia 0]).
    { unfold step, initHls.
      cbn [video unmounted set_hlsRef set_state set_video props].
      change (truthy_src (props (unmounted p))) with (truthy_src p).
      rewrite Hs, Hok. reflexivity. }
    split; [exact Hlog|]. unfold alive. rewrite Hlog. reflexivity.
Qed.

(** What the handler does with a fault it sorts as fatal. *)
Lemma on_error_fatal hls data c :
  classify data = Fatal ->
  log (on_error hls data c)
  = log c
    ++ match onError (props c) with
       | Some cb => [OnError cb ("HLS Error: " ++ details data)%string]
       | None => []
       end
    ++ [HlsDestroy hls]
  /\ state (on_error hls data c)
     = {| isPlaying := isPlaying (state c); isMuted := isMuted (state c);
          isLoading := false; hasError := true |}
  /\ hlsRef (on_error hls data c) = hlsRef c
  /\ props (on_error hls data c) = props c
  /\ video (on_error hls data c) = video c
  /\ next_id (on_error hls data c) = next_id c.
Proof.
  unfold classify, on_error. destruct (fatal data); [|discriminate]. cbn [negb].
  destruct (err_type data); try discriminate; intros _;
    destruct (onError (props c)); cbn; rewrite <- ?app_assoc; auto 8.
Qed.

Lemma destroy_calls_hls_calls i l :
  destroy_calls i (hls_calls l) = destroy_calls i l.
Proof.
  unfold destroy_calls, hls_calls. induction l as [|a l IH]; [reflexivity|].
  destruct a; simpl; try exact IH.
  destruct (Nat.eqb i i0); simpl; now rewrite IH.
Qed.

(** C3 (amended).  In any run of the component, when the live instance
    reports a fault whose payload is marked fatal and whose type is neither
    network nor media (the handler's last branch): [destroy()] is called on
    it, the only call made on any pipeline, which brings the number of
    [destroy()] calls on it to exactly one; no instance is alive afterwards;
    [hasError] is set.  Whatever passive events follow (pipeline, element and
    promise events, the play and mute buttons), nothing more is called on any
    pipeline, the count stays at one and [hasError] stays set: the player
    does not retry by itself.  The retry button then clears [hasError] and
    creates the next instance.  A fault whose payload is not marked fatal is
    ignored, whatever its type: the handler returns at once and nothing
    changes.  (The page renders the player with a fixed [src] and no
    [onError], and never unmounts it; a parent that changes the props or
    remounts the player starts a session of its own.) *)
Theorem fatal_fault_tears_down_once :
  forall (p : Props) (es : list Event) (hls : nat) (data : ErrorData)
         (es' : list Event),
    alive (run isSupported es (unmounted p)) hls = true ->
    classify data = Fatal ->
    forallb passive es' = true ->
    let c := run isSupported es (unmounted p) in
    let c' := step isSupported (Hls hls (ERROR data)) c in
    let c'' := run isSupported es' c' in
    (destroy_calls hls (log c') = 1
     /\ hls_calls (log c') = hls_calls (log c) ++ [HlsDestroy hls]
     /\ (forall j, alive c' j = false)
     /\ hasError (state c') = true)
    /\ (hls_calls (log c'') = hls_calls (log c')
        /\ destroy_calls hls (log c'') = 1
        /\ hasError (state c'') = true)
    /\ (instances_created (log (step isSupported ClickRetry c''))
        = S (instances_created (log c''))
        /\ hasError (state (step isSupported ClickRetry c'')) = false)
    /\ (forall data',
          fatal data' = false ->
          step isSupported (Hls hls (ERROR data')) c = c).
Proof.
  intros p es hls data es' Ha Hcl Hpas c c' c''.
  assert (HI : Inv c) by apply Inv_run, Inv_unmounted.
  assert (HP : Playable c)
    by (apply Playable_run, Playable_no_ref; reflexivity).
  destruct (alive_current c hls HI Ha) as (Hl & Href).
  assert (Hv : video c = true).
  { destruct (video c) eqn:Hvc; [reflexivity|].
    rewrite (inv_unmounted c HI Hvc) in Hl. discriminate. }
  assert (E : c' = on_error hls data c) by now apply step_error_alive.
  destruct (on_error_fatal hls data c Hcl) as (Hlog & Hst & Hr & Hpr & Hvid & Hnx).
  rewrite <- E in Hlog, Hst, Hr, Hpr, Hvid, Hnx.
  assert (Hl' : live c' = []).
  { rewrite Hlog. unfold Ledger.live_after. rewrite !Ledger.replay_app.
    fold (Ledger.live_after kind (log c)). rewrite Hl.
    destruct (onError (props c)); simpl; apply Ledger.remove_single. }
  assert (Hv' : video c' = true) by (rewrite Hvid; exact Hv).
  destruct (passive_run_idle es' c' Hv' Hl' Hpas)
    as ((Hv2 & Hl2 & Hr2 & Hp2 & Hn2) & Hc2 & Hh2).
  fold c'' in Hv2, Hl2, Hr2, Hp2, Hn2, Hc2, Hh2.
  assert (Herr' : hasError (state c') = true) by now rewrite Hst.
  assert (Honce : destroy_calls hls (log c') = 1).
  { rewrite Hlog, !destroy_calls_app, (inv_intact c HI hls) by (rewrite Hl; now left).
    destruct (onError (props c)); cbn; now rewrite Nat.eqb_refl. }
  split; [|split; [|split]].
  - split; [exact Honce|]. split; [|split].
    + rewrite Hlog. unfold hls_calls. rewrite !filter_app.
      destruct (onError (props c)); reflexivity.
    + intros j. unfold alive. now rewrite Hl'.
    + exact Herr'.
  - split; [exact Hc2|]. split; [|congruence].
    rewrite <- destroy_calls_hls_calls, Hc2, destroy_calls_hls_calls. exact Honce.
  - destruct HP as (Hplay & _).
    destruct (Hplay hls Href) as (s & Hs & Hok).
    assert (Hretry : step isSupported ClickRetry c'' = initHls isSupported c'').
    { unfold step. now rewrite Hv2. }
    assert (Hs2 : truthy_src (props c'') = Some s) by congruence.
    assert (Href2 : hlsRef c'' = Some hls) by congruence.
    destruct (initHls_replaces c'' hls s Hv2 Hs2 Href2 Hok) as (Hlog2 & _).
    rewrite Hretry. split.
    + rewrite Hlog2. unfold instances_created. rewrite filter_app, length_app.
      cbn. lia.
    + unfold initHls. rewrite Hv2, Hs2, Hok. unfold destroyHls. rewrite Href2.
      reflexivity.
  - intros data' Hnf. rewrite (step_error_alive c hls data' Hv Ha).
    now apply on_error_not_fatal.
Qed.

(** *** Recoverable faults *)

Lemma on_error_recoverable hls data c :
  classify data <> Fatal ->
  log (on_error hls data c)
  = log c ++ match classify data with
             | Network => [HlsStartLoad hls]
             | Media => [HlsRecoverMediaError hls]
             | _ => []
             end
  /\ state (on_error hls data c)
     = match classify data with
       | Ignored => state c
       | _ => {| isPlaying := isPlaying (state c); isMuted := isMuted (state c);
                 isLoading := false; hasError := hasError (state c) |}
       end
  /\ hlsRef (on_error hls data c) = hlsRef c
  /\ props (on_error hls data c) = props c
  /\ video (on_error hls data c) = video c
  /\ next_id (on_error hls data c) = next_id c.
Proof.
  unfold classify, on_error. destruct (fatal data); cbn [negb].
  - destruct (err_type data); intros H; try (now destruct H); cbn; auto 8.
  - intros _. rewrite app_nil_r. auto 8.
Qed.

Lemma alive_log_app c c' acts i :
  log c' = log c ++ acts -> neutral acts = true -> alive c' i = alive c i.
Proof.
  intros Hlog Hn. unfold alive. rewrite Hlog.
  unfold Ledger.live_after. rewrite Ledger.replay_app, replay_neutral by exact Hn.
  reflexivity.
Qed.

(** X9.  A media fault marked fatal, reported by the live instance, is
    recovered in place: [recoverMediaError()] is the one call made,
    [isLoading] is cleared, every other flag and the ref stay as they were,
    and the instance is still alive. *)
Theorem media_fault_recovery :
  forall (c : Component) (hls : nat) (data : ErrorData),
    video c = true ->
    alive c hls = true ->
    classify data = Media ->
    let c' := step isSupported (Hls hls (ERROR data)) c in
    log c' = log c ++ [HlsRecoverMediaError hls]
    /\ state c'
       = {| isPlaying := isPlaying (state c); isMuted := isMuted (state c);
            isLoading := false; hasError := hasError (state c) |}
    /\ hlsRef c' = hlsRef c
    /\ alive c' hls = true.
Proof.
  intros c hls data Hv Ha Hcl c'.
  assert (E : c' = on_error hls data c) by now apply step_error_alive.
  assert (Hnf : classify data <> Fatal) by (rewrite Hcl; discriminate).
  destruct (on_error_recoverable hls data c Hnf) as (Hlog & Hst & Hr & _).
  rewrite Hcl in Hlog, Hst. rewrite E.
  split; [exact Hlog|]. split; [exact Hst|]. split; [exact Hr|].
  rewrite (alive_log_app c _ _ hls Hlog) by reflexivity. exact Ha.
Qed.

(** Faults the handler does not sort as fatal. *)
Definition recoverable (data : ErrorData) : bool :=
  match classify data with
  | Fatal => false
  | _ => true
  end.

Definition is_network (data : ErrorData) : bool :=
  match classify data with
  | Network => true
  | _ => false
  end.

Definition faults_of (hls : nat) (faults : list ErrorData) : list Event :=
  map (fun data => Hls hls (ERROR data)) faults.

Lemma recoverable_step c hls data :
  video c = true -> alive c hls = true -> recoverable data = true ->
  video (step isSupported (Hls hls (ERROR data)) c) = true
  /\ alive (step isSupported (Hls hls (ERROR data)) c) hls = true
  /\ hasError (state (step isSupported (Hls hls (ERROR data)) c))
     = hasError (state c)
  /\ hls_calls (log (step isSupported (Hls hls (ERROR data)) c))
     = hls_calls (log c)
       ++ match classify data with
          | Network => [HlsStartLoad hls]
          | Media => [HlsRecoverMediaError hls]
          | _ => []
          end.
Proof.
  intros Hv Ha Hrec.
  rewrite (step_error_alive c hls data Hv Ha).
  assert (Hnf : classify data <> Fatal)
    by (unfold recoverable in Hrec; destruct (classify data); discriminate).
  destruct (on_error_recoverable hls data c Hnf) as (Hlog & Hst & _ & _ & Hvid & _).
  split; [congruence|]. split; [|split].
  - rewrite (alive_log_app c _ _ hls Hlog); [exact Ha|].
    destruct (classify data); reflexivity.
  - rewrite Hst. destruct (classify data); reflexivity.
  - rewrite Hlog. unfold hls_calls. rewrite filter_app.
    destruct (classify data); reflexivity.
Qed.

(** X10.  Recovery has no bound: however many network and media faults
    the live instance reports in a row, the player answers each with one
    [startLoad()] or [recoverMediaError()], never destroys the instance and
    never sets [hasError]. *)
Theorem recoverable_faults_never_escalate :
  forall (faults : list ErrorData) (c : Component) (hls : nat),
    video c = true ->
    alive c hls = true ->
    forallb recoverable faults = true ->
    alive (run isSupported (faults_of hls faults) c) hls = true
    /\ hasError (state (run isSupported (faults_of hls faults) c))
       = hasError (state c)
    /\ hls_calls (log (run isSupported (faults_of hls faults) c))
       = hls_calls (log c)
         ++ flat_map (fun data => match classify data with
                                  | Network => [HlsStartLoad hls]
                                  | Media => [HlsRecoverMediaError hls]
                                  | _ => []
                                  end) faults.
Proof.
  induction faults as [|data faults IH]; intros c hls Hv Ha Hall.
  - simpl. rewrite app_nil_r. auto.
  - simpl in Hall. apply andb_prop in Hall as [Hd Hrest].
    destruct (recoverable_step c hls data Hv Ha Hd) as (Hv' & Ha' & Hh' & Hc').
    destruct (IH _ hls Hv' Ha' Hrest) as (Ha2 & Hh2 & Hc2).
    change (run isSupported (faults_of hls (data :: faults)) c)
      with (run isSupported (faults_of hls faults)
              (step isSupported (Hls hls (ERROR data)) c)).
    cbn [flat_map].
    split; [exact Ha2|]. split; [congruence|].
    rewrite Hc2, Hc', <- app_assoc. reflexivity.
Qed.

(** *** Toggles *)

(** X11.  The play and mute buttons are involutions on the flags: two
    clicks in a row restore [PlayerState], having called pause then play (or
    play then pause) on the element, and having set its [muted] property to
    the opposite and back. *)
Theorem toggles_restore :
  forall (c : Component),
    video c = true ->
    (state (step isSupported ClickTogglePlay (step isSupported ClickTogglePlay c))
     = state c
     /\ log (step isSupported ClickTogglePlay (step isSupported ClickTogglePlay c))
        = log c ++ (if isPlaying (state c) then [VideoPause; VideoPlay]
                    else [VideoPlay; VideoPause]))
    /\ (state (step isSupported ClickToggleMute (step isSupported ClickToggleMute c))
        = state c
        /\ log (step isSupported ClickToggleMute (step isSupported ClickToggleMute c))
           = log c ++ [VideoSetMuted (negb (isMuted (state c)));
                       VideoSetMuted (isMuted (state c))]).
Proof.
  intros c Hv. unfold step. rewrite Hv.
  cbn [togglePlay toggleMute updateState record set_state video].
  rewrite Hv. cbn [togglePlay toggleMute updateState record set_state video state log
                   spread override set_isPlaying set_isMuted set_isLoading
                   set_hasError isPlaying isMuted isLoading hasError].
  rewrite !negb_involutive, <- !app_assoc.
  destruct (state c) as [pl mu lo er]. cbn. destruct pl; auto.
Qed.

(** *** What every run keeps *)

Lemma run_app es1 es2 c :
  run isSupported (es1 ++ es2) c = run isSupported es2 (run isSupported es1 c).
Proof. unfold run. apply fold_left_app. Qed.

Lemma not_alive_nil c i : live c = [] -> alive c i = false.
Proof. intros H. unfold alive. now rewrite H. Qed.

(** X12.  No pipeline is ever lost track of: in every run, an instance
    that is alive is the one [hlsRef] holds, the component is mounted, and
    no other instance is alive. *)
Theorem pipeline_never_leaks :
  forall (p : Props) (es : list Event) (i : nat),
    alive (run isSupported es (unmounted p)) i = true ->
    hlsRef (run isSupported es (unmounted p)) = Some i
    /\ video (run isSupported es (unmounted p)) = true
    /\ (forall j, alive (run isSupported es (unmounted p)) j = true -> j = i).
Proof.
  intros p es i Ha.
  set (c := run isSupported es (unmounted p)) in *.
  assert (HI : Inv c) by apply Inv_run, Inv_unmounted.
  destruct (alive_current c i HI Ha) as (Hl & Href).
  split; [exact Href|]. split.
  - destruct (video c) eqn:Hv; [reflexivity|].
    rewrite (inv_unmounted c HI Hv) in Hl. discriminate.
  - intros j Hj. destruct (alive_current c j HI Hj) as (_ & Href'). congruence.
Qed.

(** X13.  Unmounting releases the pipeline, whatever happened before:
    after the cleanup no instance is alive and the ref is empty. *)
Theorem unmount_releases :
  forall (p : Props) (es : list Event),
    (forall i, alive (run isSupported (es ++ [Unmount]) (unmounted p)) i = false)
    /\ hlsRef (run isSupported (es ++ [Unmount]) (unmounted p)) = None
    /\ video (run isSupported (es ++ [Unmount]) (unmounted p)) = false.
Proof.
  intros p es. rewrite run_app.
  set (c := run isSupported es (unmounted p)).
  assert (HI : Inv c) by apply Inv_run, Inv_unmounted.
  assert (HP : Playable c) by (apply Playable_run, Playable_no_ref; reflexivity).
  cbn [run fold_left]. unfold step. destruct (video c) eqn:Hv.
  - destruct (Inv_destroyHls c HI) as (_ & Hl & Hr & _).
    split; [|split; [exact Hr | reflexivity]].
    intros i. now apply not_alive_nil.
  - destruct HP as (_ & Hnone).
    split; [|split; [now apply Hnone | exact Hv]].
    intros i. apply not_alive_nil. now apply (inv_unmounted c HI).
Qed.

Lemma initHls_cases c :
  initHls isSupported c = c \/ hasError (state (initHls isSupported c)) = false.
Proof.
  unfold initHls. destruct (video c); [|now left].
  destruct (truthy_src (props c)) as [s|]; [|now left].
  right. destruct (isSupported && endsWith s ".m3u8"); reflexivity.
Qed.

Lemma live_record_neutral acts c :
  neutral acts = true -> live (record acts c) = live c.
Proof. intros H. rewrite live_record. now apply replay_neutral. Qed.

Lemma error_shown_step e c :
  Inv c ->
  (hasError (state c) = true -> live c = []) ->
  hasError (state (step isSupported e c)) = true ->
  live (step isSupported e c) = [].
Proof.
  intros HI HE. unfold step. destruct (video c) eqn:Hv.
  - destruct e as [| | p | | | | hls [|data] | | ve]; try exact HE.
    + intros _. now destruct (Inv_destroyHls c HI) as (_ & Hl & _).
    + destruct (same_props p (props c)); [exact HE|].
      destruct (initHls_cases (set_props p (destroyHls c))) as [-> | Hf].
      * intros _. now destruct (Inv_destroyHls c HI) as (_ & Hl & _).
      * rewrite Hf. discriminate.
    + destruct (initHls_cases c) as [-> | Hf]; [exact HE|].
      rewrite Hf. discriminate.
    + unfold togglePlay. intros H.
      change (live (record [if isPlaying (state c) then VideoPause else VideoPlay] c) = []).
      rewrite live_record_neutral by (destruct (isPlaying (state c)); reflexivity).
      exact (HE H).
    + unfold toggleMute. intros H.
      change (live (record [VideoSetMuted (negb (isMuted (state c)))] c) = []).
      rewrite live_record_neutral by reflexivity. exact (HE H).
    + destruct (alive c hls); [|exact HE]. unfold on_manifest_parsed. intros H.
      rewrite live_record_neutral by reflexivity. exact (HE H).
    + destruct (alive c hls) eqn:Ha; [|exact HE].
      destruct (alive_current c hls HI Ha) as (Hl & Href).
      destruct (classify data) eqn:Hcl.
      1-3: assert (Hnf : classify data <> Fatal) by (rewrite Hcl; discriminate);
           destruct (on_error_recoverable hls data c Hnf) as (Hlog & Hst & _);
           rewrite Hcl in Hlog, Hst; intros H; rewrite Hst in H;
           unfold Ledger.live_after; rewrite Hlog, Ledger.replay_app;
           apply (HE H).
      destruct (on_error_fatal hls data c Hcl) as (Hlog & _).
      intros _. unfold Ledger.live_after. rewrite Hlog, !Ledger.replay_app.
      fold (Ledger.live_after kind (log c)). rewrite Hl.
      destruct (onError (props c)); simpl; apply Ledger.remove_single.
    + destruct ve; exact HE.
  - destruct e as [| | p | | | | hls he | | ve]; try exact HE.
    destruct (initHls_cases
                (set_hlsRef None (set_state INITIAL_PLAYER_STATE (set_video true c))))
      as [-> | Hf]; [discriminate | rewrite Hf; discriminate].
Qed.

Lemma error_shown_run es :
  forall c,
    Inv c -> (hasError (state c) = true -> live c = []) ->
    hasError (state (run isSupported es c)) = true ->
    live (run isSupported es c) = [].
Proof.
  induction es as [|e es IH]; intros c HI HE; [exact HE|].
  simpl. apply IH; [now apply Inv_step | now apply error_shown_step].
Qed.

(** X14.  The error overlay is never shown over a running pipeline: in
    every run, while [hasError] is set no [Hls] instance is alive. *)
Theorem error_shown_means_torn_down :
  forall (p : Props) (es : list Event) (i : nat),
    hasError (state (run isSupported es (unmounted p))) = true ->
    alive (run isSupported es (unmounted p)) i = false.
Proof.
  intros p es i H. apply not_alive_nil.
  apply error_shown_run; [apply Inv_unmounted | discriminate | exact H].
Qed.

(** *** Native playback *)

(** Whether [initHls] takes the [Hls] branch for these props. *)
Definition hls_capable (q : Props) : bool :=
  isSupported &&
  match truthy_src q with
  | Some s => endsWith s ".m3u8"
  | None => false
  end.

Definition stays_native (e : Event) : bool :=
  match e with
  | Render q => negb (hls_capable q)
  | _ => true
  end.

Definition native (c : Component) : Prop :=
  hls_capable (props c) = false
  /\ hls_calls (log c) = []
  /\ hlsRef c = None
  /\ live c = [].

Lemma native_initHls c : native c -> native (initHls isSupported c).
Proof.
  intros (Hcap & Hcalls & Href & Hl). unfold initHls.
  destruct (video c); [|repeat split; assumption].
  destruct (truthy_src (props c)) as [s|] eqn:Hs; [|repeat split; assumption].
  unfold hls_capable in Hcap. rewrite Hs in Hcap. rewrite Hcap.
  unfold destroyHls. rewrite Href.
  repeat split.
  - unfold hls_capable. cbn. now rewrite Hs.
  - cbn. unfold hls_calls in *. rewrite filter_app, Hcalls. reflexivity.
  - exact Href.
  - rewrite live_record_neutral by reflexivity. exact Hl.
Qed.

Lemma native_step e c :
  stays_native e = true -> native c -> native (step isSupported e c).
Proof.
  intros He HN. pose proof HN as (Hcap & Hcalls & Href & Hl).
  assert (Hdead : forall i, alive c i = false) by (intros i; now apply not_alive_nil).
  assert (Hdes : destroyHls c = c) by (unfold destroyHls; now rewrite Href).
  assert (Hrec : forall acts u, neutral acts = true -> hls_calls acts = [] ->
                 native (updateState u (record acts c))).
  { intros acts u Hn Hh. repeat split; trivial.
    - cbn. unfold hls_calls in *. now rewrite filter_app, Hcalls, Hh.
    - change (live (record acts c) = []). now rewrite live_record_neutral. }
  unfold step. destruct (video c) eqn:Hv.
  - destruct e as [| | p | | | | hls [|data] | | ve]; trivial.
    + rewrite Hdes. exact HN.
    + destruct (same_props p (props c)); [exact HN|].
      rewrite Hdes. apply native_initHls.
      simpl in He. apply negb_true_iff in He. repeat split; assumption.
    + now apply native_initHls.
    + unfold togglePlay. apply Hrec; destruct (isPlaying (state c)); reflexivity.
    + unfold toggleMute. apply Hrec; reflexivity.
    + rewrite Hdead. exact HN.
    + rewrite Hdead. exact HN.
    + destruct ve; exact HN.
  - destruct e as [| | p | | | | hls he | | ve]; trivial.
    + apply native_initHls. repeat split; assumption.
    + simpl in He. apply negb_true_iff in He. repeat split; assumption.
Qed.

(** X15.  Where [Hls] is not supported or the source is not an [.m3u8]
    manifest, for the first props and for every later render, the player
    never touches the [Hls] library: no instance is ever created and the ref
    stays empty; a mount with a source sets [video.src] and plays. *)
Theorem native_playback_never_creates_hls :
  forall (p : Props) (es : list Event),
    hls_capable p = false ->
    forallb stays_native es = true ->
    hls_calls (log (run isSupported es (unmounted p))) = []
    /\ hlsRef (run isSupported es (unmounted p)) = None
    /\ (forall s, truthy_src p = Some s ->
                  log (step isSupported Mount (unmounted p))
                  = [VideoSetSrc s; VideoPlay]).
Proof.
  intros p es Hcap Hes.
  assert (Hrun : forall es c, forallb stays_native es = true -> native c ->
                 native (run isSupported es c)).
  { clear es Hes. induction es as [|e es IH]; intros c Hall HN; [exact HN|].
    simpl in Hall. apply andb_prop in Hall as [He Hall].
    simpl. apply IH; [exact Hall | now apply native_step]. }
  destruct (Hrun es (unmounted p) Hes) as (_ & Hcalls & Href & _).
  { repeat split; trivial. }
  split; [exact Hcalls|]. split; [exact Href|].
  intros s Hs. unfold hls_capable in Hcap. rewrite Hs in Hcap.
  unfold step, initHls. cbn [video unmounted set_hlsRef set_state set_video props].
  change (truthy_src (props (unmounted p))) with (truthy_src p).
  rewrite Hs, Hcap. reflexivity.
Qed.

(** *** How often [destroy()] is called *)

Definition destroy_bound (c : Component) (i : nat) : nat :=
  match hlsRef c with
  | Some j => if Nat.eqb i j then (if alive c i then 0 else 1) else 2
  | None => 2
  end.

Definition destroys_bounded (c : Component) : Prop :=
  forall i, destroy_calls i (log c) <= destroy_bound c i.

Lemma destroy_bound_le c i : destroy_bound c i <= 2.
Proof.
  unfold destroy_bound. destruct (hlsRef c); [|lia].
  destruct (Nat.eqb i n); [destruct (alive c i)|]; lia.
Qed.

Lemma destroy_calls_neutral i acts :
  neutral acts = true -> destroy_calls i acts = 0.
Proof.
  intros H. apply destroy_calls_none. intros j Hj.
  now apply neutral_no_destroy in Hj.
Qed.

Lemma destroys_bounded_neutral c c' acts :
  log c' = log c ++ acts -> neutral acts = true -> hlsRef c' = hlsRef c ->
  destroys_bounded c -> destroys_bounded c'.
Proof.
  intros Hlog Hn Href HD i. specialize (HD i).
  unfold destroy_bound in *. rewrite Href, (alive_log_app c c' acts i Hlog Hn).
  rewrite Hlog, destroy_calls_app, (destroy_calls_neutral i acts Hn). lia.
Qed.

Lemma destroy_calls_single i j :
  destroy_calls i [HlsDestroy j] = if Nat.eqb i j then 1 else 0.
Proof. unfold destroy_calls. simpl. destruct (Nat.eqb i j); reflexivity. Qed.

Lemma destroys_bounded_destroyHls c :
  destroys_bounded c -> destroys_bounded (destroyHls c).
Proof.
  intros HD. unfold destroyHls. destruct (hlsRef c) as [j|] eqn:Href; [|exact HD].
  intros i. specialize (HD i). unfold destroy_bound in *. rewrite Href in HD.
  cbn [hlsRef set_hlsRef record log]. rewrite destroy_calls_app, destroy_calls_single.
  destruct (Nat.eqb i j).
  - destruct (alive c i); lia.
  - lia.
Qed.

Lemma destroys_bounded_initHls c :
  Inv c -> destroys_bounded c -> destroys_bounded (initHls isSupported c).
Proof.
  intros HI HD. unfold initHls.
  destruct (video c); [|exact HD].
  destruct (truthy_src (props c)) as [s|]; [|exact HD].
  pose proof (destroys_bounded_destroyHls c HD) as HD1.
  destruct (Inv_destroyHls c HI) as (HI1 & Hl1 & Hr1 & _).
  set (c1 := destroyHls c) in *.
  destruct (isSupported && endsWith s ".m3u8").
  - intros i. unfold destroy_bound, fresh_instance.
    cbn [hlsRef record set_hlsRef log updateState set_state next_id].
    rewrite <- app_assoc, destroy_calls_app. cbn [app].
    replace (destroy_calls i
               [HlsNew (next_id c1); HlsLoadSource (next_id c1) s;
                HlsAttachMedia (next_id c1)]) with 0 by reflexivity.
    destruct (Nat.eqb_spec i (next_id c1)) as [->|Hne].
    + rewrite destroy_calls_none; [lia|].
      intros j Hj ->. pose proof (inv_destroyed c1 HI1 _ Hj). lia.
    + pose proof (HD1 i). pose proof (destroy_bound_le c1 i). lia.
  - eapply (destroys_bounded_neutral c1 _ [VideoSetSrc s; VideoPlay]);
      [reflexivity | reflexivity | reflexivity | exact HD1].
Qed.

Lemma destroys_bounded_on_error hls data c :
  Inv c -> alive c hls = true -> destroys_bounded c ->
  destroys_bounded (on_error hls data c).
Proof.
  intros HI Ha HD. destruct (alive_current c hls HI Ha) as (Hl & Href).
  destruct (classify data) eqn:Hcl.
  1-3: assert (Hnf : classify data <> Fatal) by (rewrite Hcl; discriminate);
       destruct (on_error_recoverable hls data c Hnf) as (Hlog & _ & Hr & _);
       rewrite Hcl in Hlog;
       eapply destroys_bounded_neutral; [exact Hlog | reflexivity | exact Hr | exact HD].
  destruct (on_error_fatal hls data c Hcl) as (Hlog & _ & Hr & _).
  intros i. specialize (HD i). unfold destroy_bound in *. rewrite Hr, Href in *.
  rewrite Hlog, !destroy_calls_app.
  replace (destroy_calls i
             match onError (props c) with
             | Some cb => [OnError cb ("HLS Error: " ++ details data)%string]
             | None => []
             end) with 0 by (destruct (onError (props c)); reflexivity).
  rewrite destroy_calls_single. destruct (Nat.eqb i hls) eqn:E.
  - apply Nat.eqb_eq in E. subst i. rewrite Ha in HD.
    assert (Hdead : alive (on_error hls data c) hls = false).
    { unfold alive, Ledger.live_after. rewrite Hlog, !Ledger.replay_app.
      fold (Ledger.live_after kind (log c)). rewrite Hl.
      destruct (onError (props c)); simpl;
        destruct (Nat.eq_dec hls hls); try contradiction; reflexivity. }
    rewrite Hdead. lia.
  - lia.
Qed.

Lemma destroys_bounded_step e c :
  Inv c -> destroys_bounded c -> destroys_bounded (step isSupported e c).
Proof.
  intros HI HD. unfold step. destruct (video c) eqn:Hv.
  - destruct e as [| | p | | | | hls [|data] | | ve]; trivial.
    + exact (destroys_bounded_destroyHls c HD).
    + destruct (same_props p (props c)); [exact HD|].
      apply destroys_bounded_initHls.
      * apply Inv_set_props. now apply Inv_destroyHls.
      * exact (destroys_bounded_destroyHls c HD).
    + now apply destroys_bounded_initHls.
    + eapply (destroys_bounded_neutral c _
                [if isPlaying (state c) then VideoPause else VideoPlay]);
        [reflexivity | destruct (isPlaying (state c)); reflexivity | reflexivity | exact HD].
    + eapply (destroys_bounded_neutral c _ [VideoSetMuted (negb (isMuted (state c)))]);
        [reflexivity | reflexivity | reflexivity | exact HD].
    + destruct (alive c hls); [|exact HD].
      eapply (destroys_bounded_neutral c _ [VideoPlay]);
        [reflexivity | reflexivity | reflexivity | exact HD].
    + destruct (alive c hls) eqn:Ha; [|exact HD]. now apply destroys_bounded_on_error.
    + destruct ve; exact HD.
  - destruct e as [| | p | | | | hls he | | ve]; trivial.
    apply destroys_bounded_initHls.
    + pose proof (inv_unmounted c HI Hv) as Hl.
      destruct HI. constructor; cbn; trivial; [now left | discriminate].
    + intros i. pose proof (HD i). pose proof (destroy_bound_le c i).
      unfold destroy_bound. cbn [hlsRef set_hlsRef set_state set_video log]. lia.
Qed.

(** X16.  [destroy()] is called at most twice on any [Hls] instance, in
    every run: once when the session is replaced or detached, and possibly
    once before by the fatal branch of the fault handler, which leaves the
    ref in place. *)
Theorem destroy_at_most_twice :
  forall (p : Props) (es : list Event) (i : nat),
    destroy_calls i (log (run isSupported es (unmounted p))) <= 2.
Proof.
  intros p es i.
  assert (Hrun : forall es c, Inv c -> destroys_bounded c ->
                 destroys_bounded (run isSupported es c)).
  { clear es. induction es as [|e es IH]; intros c HI HD; [exact HD|].
    simpl. apply IH; [now apply Inv_step | now apply destroys_bounded_step]. }
  assert (H0 : destroys_bounded (unmounted p)) by (intros j; cbn; lia).
  pose proof (Hrun es _ (Inv_unmounted p) H0 i).
  pose proof (destroy_bound_le (run isSupported es (unmounted p)) i). lia.
Qed.

End Sessions.

Lemma autoplay_rejection_is_not_a_fault_witness :
  state (run true [Mount; Hls 0 MANIFEST_PARSED; PlayRejected] (unmounted hls_props))
  = {| isPlaying := false; isMuted := true; isLoading := false; hasError := false |}
  /\ alive (run true [Mount; Hls 0 MANIFEST_PARSED; PlayRejected]
              (unmounted hls_props)) 0 = true.
Proof.
  destruct (autoplay_rejection_is_not_a_fault true
              (run true [Mount] (unmounted hls_props)) 0 eq_refl eq_refl)
    as (_ & _ & _ & _ & _ & _ & _ & Ha).
  split; [reflexivity | exact Ha].
Defined.


Lemma network_fault_recovery_witness :
  log (run true [Mount; Hls 0 (ERROR (sample_fault true NETWORK_ERROR))]
         (unmounted hls_props))
  = [HlsNew 0; HlsLoadSource 0 "http://localhost:5000/stream/index.m3u8";
     HlsAttachMedia 0; HlsStartLoad 0].
Proof.
  destruct (network_fault_recovery true (run true [Mount] (unmounted hls_props)) 0
              (sample_fault true NETWORK_ERROR) eq_refl eq_refl eq_refl)
    as (_ & _ & _ & _ & _ & _ & _ & _ & Hf).
  exact (proj1 (Hf eq_refl)).
Defined.

Lemma fatal_fault_tears_down_once_witness :
  destroy_calls 0
    (log (step true (Hls 0 (ERROR (sample_fault true OTHER_ERROR)))
            (run true [Mount] (unmounted hls_props)))) = 1
  /\ hasError
       (state (run true [Video onPause; ClickTogglePlay; PlayRejected]
                 (step true (Hls 0 (ERROR (sample_fault true OTHER_ERROR)))
                    (run true [Mount] (unmounted hls_props))))) = true.
Proof.
  destruct (fatal_fault_tears_down_once true hls_props [Mount] 0
              (sample_fault true OTHER_ERROR)
              [Video onPause; ClickTogglePlay; PlayRejected]
              eq_refl eq_refl eq_refl)
    as ((Honce & _) & (_ & _ & Herr) & _).
  split; [exact Honce | exact Herr].
Defined.

(** C3 (as stated, refuted).  A fault that is neither a network nor a media
    fault, but whose payload is not marked fatal, tears nothing down: no
    [destroy()] is called, the instance stays alive and [hasError] stays
    clear.  And where the pipeline is torn down, it is not torn down exactly
    once: the handler leaves the ref in place, so the retry that follows
    calls [destroy()] on the same instance a second time. *)
Lemma fatal_fault_claim_fails :
  err_type (sample_fault false OTHER_ERROR) = OTHER_ERROR
  /\ destroy_calls 0
       (log (run true [Mount; Hls 0 (ERROR (sample_fault false OTHER_ERROR))]
               (unmounted hls_props))) = 0
  /\ alive (run true [Mount; Hls 0 (ERROR (sample_fault false OTHER_ERROR))]
              (unmounted hls_props)) 0 = true
  /\ hasError
       (state (run true [Mount; Hls 0 (ERROR (sample_fault false OTHER_ERROR))]
                 (unmounted hls_props))) = false
  /\ destroy_calls 0
       (log (run true [Mount; Hls 0 (ERROR (sample_fault true OTHER_ERROR));
                       ClickRetry]
               (unmounted hls_props))) = 2.
Proof. repeat split. Qed.

Lemma sessions_never_layered_witness :
  log (run true [Mount; ClickRetry] (unmounted hls_props))
  = [HlsNew 0; HlsLoadSource 0 "http://localhost:5000/stream/index.m3u8";
     HlsAttachMedia 0; HlsDestroy 0;
     HlsNew 1; HlsLoadSource 1 "http://localhost:5000/stream/index.m3u8";
     HlsAttachMedia 1]
  /\ alive (step true Mount (unmounted hls_props)) 0 = true.
Proof.
  destruct (sessions_never_layered true hls_props [Mount]) as (_ & _ & H & H0).
  split.
  - destruct (H 0 eq_refl) as (Hstep & s & Hs & Hlog & _).
    change (run true [Mount; ClickRetry] (unmounted hls_props))
      with (step true ClickRetry (run true [Mount] (unmounted hls_props))).
    rewrite Hstep, Hlog.
    vm_compute in Hs. injection Hs as <-. reflexivity.
  - exact (proj2 (H0 "http://localhost:5000/stream/index.m3u8" eq_refl eq_refl)).
Defined.

(** C2 (as stated, refuted).  A network fault whose payload is not marked
    fatal does not restart the load loop: no [startLoad()] is called.  One
    that is marked fatal does restart it, but then the loading indicator the
    user sees goes from shown to hidden. *)
Lemma network_fault_claim_fails :
  startLoad_calls 0
    (log (run true [Mount; Hls 0 (ERROR (sample_fault false NETWORK_ERROR))]
            (unmounted hls_props))) = 0
  /\ isLoading (state (run true [Mount] (unmounted hls_props))) = true
  /\ isLoading
       (state (run true [Mount; Hls 0 (ERROR (sample_fault true NETWORK_ERROR))]
                 (unmounted hls_props))) = false.
Proof. repeat split. Qed.

Lemma media_fault_recovery_witness :
  log (step true (Hls 0 (ERROR (sample_fault true MEDIA_ERROR)))
         (run true [Mount] (unmounted hls_props)))
  = log (run true [Mount] (unmounted hls_props)) ++ [HlsRecoverMediaError 0].
Proof.
  exact (proj1 (media_fault_recovery true (run true [Mount] (unmounted hls_props)) 0
                  (sample_fault true MEDIA_ERROR) eq_refl eq_refl eq_refl)).
Defined.

Lemma recoverable_faults_never_escalate_witness :
  alive (run true
           (faults_of 0 [sample_fault true NETWORK_ERROR; sample_fault true MEDIA_ERROR;
                         sample_fault false OTHER_ERROR; sample_fault true NETWORK_ERROR])
           (run true [Mount] (unmounted hls_props))) 0 = true.
Proof.
  exact (proj1 (recoverable_faults_never_escalate true
                  [sample_fault true NETWORK_ERROR; sample_fault true MEDIA_ERROR;
                   sample_fault false OTHER_ERROR; sample_fault true NETWORK_ERROR]
                  (run true [Mount] (unmounted hls_props)) 0
                  eq_refl eq_refl eq_refl)).
Defined.

Lemma toggles_restore_witness :
  state (step true ClickTogglePlay
           (step true ClickTogglePlay (run true [Mount] (unmounted hls_props))))
  = state (run true [Mount] (unmounted hls_props)).
Proof.
  exact (proj1 (proj1 (toggles_restore true (run true [Mount] (unmounted hls_props))
                         eq_refl))).
Defined.

Lemma pipeline_never_leaks_witness :
  hlsRef (run true [Mount; Hls 0 MANIFEST_PARSED] (unmounted hls_props)) = Some 0.
Proof.
  exact (proj1 (pipeline_never_leaks true hls_props [Mount; Hls 0 MANIFEST_PARSED] 0
                  eq_refl)).
Defined.

Lemma error_shown_means_torn_down_witness :
  alive (run true [Mount; Hls 0 (ERROR (sample_fault true OTHER_ERROR))]
           (unmounted hls_props)) 0 = false.
Proof.
  exact (error_shown_means_torn_down true hls_props
           [Mount; Hls 0 (ERROR (sample_fault true OTHER_ERROR))] 0 eq_refl).
Defined.

Lemma native_playback_never_creates_hls_witness :
  hls_calls (log (run false [Mount; ClickTogglePlay; Unmount] (unmounted hls_props)))
  = [].
Proof.
  exact (proj1 (native_playback_never_creates_hls false hls_props
                  [Mount; ClickTogglePlay; Unmount] eq_refl eq_refl)).
Defined.

End VideoPlayer.

(* ===================================================================== *)
(** ** Stream Lifecycle Manager (server side) *)
(* ===================================================================== *)

Module Lifecycle.
Open Scope list_scope.

(** Modelled from the spec: the Stream Lifecycle Manager, its state store
    and its process handle are server code that the client sources do not
    contain.  The definitions of this module follow sections 3, 4.1, 5 and 7
    of the design document: the state has the shape
    [{status, sourceUrl, startedAt, lastError}]; [start] validates the
    address, terminates and reaps a live handle before it spawns, and moves
    to [connecting], or to [error] when the spawn fails; [stop] terminates
    the tracked handle or answers [NoActiveStream]; the exit watcher moves to
    [error]; termination waits a bounded time and escalates to a forced
    kill, after which the wait returns.  The subprocess sits behind the
    narrow interface of section 9 ([spawn], [terminate], [wait]), whose
    calls are recorded.  A process that survives the forced kill (the
    termination fault of section 7) is not part of the model. *)
Inductive Status := idle | connecting | live | error.

(** Modelled from the spec: the [StreamState] of section 3. *)
Record StreamState := {
  status : Status;
  sourceUrl : option string;
  startedAt : option Z;
  lastError : option string
}.

(** Modelled from the spec: the calls on the subprocess interface.  A
    process is alive from its spawn until it has been waited on or has
    exited by itself; a signal alone does not end it. *)
Inductive OsCall :=
| Spawn (pid : nat) (url : string)
| Terminate (pid : nat)
| ForceKill (pid : nat)
| Wait (pid : nat)
| Exited (pid : nat).

(** Modelled from the spec: which call starts and which ends a process. *)
Definition kind (a : OsCall) : Ledger.Op :=
  match a with
  | Spawn pid _ => Ledger.Born pid
  | Wait pid | Exited pid => Ledger.Died pid
  | Terminate _ | ForceKill _ => Ledger.Neutral
  end.

(** Modelled from the spec: the manager owns the state store and at most
    one process handle; [calls] records the subprocess calls, oldest first. *)
Record Manager := {
  store : StreamState;
  handle : option nat;
  next_pid : nat;
  calls : list OsCall
}.

(** Modelled from the spec: the caller-facing results. *)
Inductive Outcome :=
| Started
| Rejected
| SpawnFailed
| Stopped
| NoActiveStream
| Noted.

(** Modelled from the spec: what can reach the manager.  [spawn_ok] and
    [graceful] are the environment's part: whether the spawn succeeds, and
    whether the process ends within the bounded wait or has to be killed. *)
Inductive Event :=
| Start (url : string) (spawn_ok graceful : bool)
| Stop (graceful : bool)
| Ready (t : Z)
| ProcessExit (pid : nat).

Section Manager.
(** The length cap on a source address; the document gives no figure. *)
Variable cap : nat.

(** Modelled from the spec: terminate, wait a bounded time, kill on
    timeout, and reap. *)
Definition terminate_and_reap (graceful : bool) (pid : nat) (m : Manager)
  : Manager :=
  {| store := store m; handle := None; next_pid := next_pid m;
     calls := calls m ++ [Terminate pid]
              ++ (if graceful then [] else [ForceKill pid]) ++ [Wait pid] |}.

(** Modelled from the spec: dispose of the tracked handle, if any. *)
Definition release (graceful : bool) (m : Manager) : Manager :=
  match handle m with
  | Some pid => terminate_and_reap graceful pid m
  | None => m
  end.

(** Modelled from the spec: [start(sourceUrl)]. *)
Definition start (url : string) (spawn_ok graceful : bool) (m : Manager)
  : Manager * Outcome :=
  if negb (RtspInput.spec_valid_source cap url) then (m, Rejected)
  else
    let m1 := release graceful m in
    if spawn_ok then
      ({| store := {| status := connecting; sourceUrl := Some url;
                      startedAt := startedAt (store m1); lastError := None |};
          handle := Some (next_pid m1); next_pid := S (next_pid m1);
          calls := calls m1 ++ [Spawn (next_pid m1) url] |},
       Started)
    else
      ({| store := {| status := error; sourceUrl := Some url;
                      startedAt := startedAt (store m1);
                      lastError := Some "failed to start the transcoder" |};
          handle := None; next_pid := next_pid m1; calls := calls m1 |},
       SpawnFailed).

(** Modelled from the spec: [stop()]. *)
Definition stop (graceful : bool) (m : Manager) : Manager * Outcome :=
  match handle m with
  | Some pid =>
      let m1 := terminate_and_reap graceful pid m in
      ({| store := {| status := idle; sourceUrl := None;
                      startedAt := startedAt (store m1);
                      lastError := lastError (store m1) |};
          handle := None; next_pid := next_pid m1; calls := calls m1 |},
       Stopped)
  | None => (m, NoActiveStream)
  end.

(** Modelled from the spec: [connecting] becomes [live] once initial
    output is observed. *)
Definition ready (t : Z) (m : Manager) : Manager * Outcome :=
  match status (store m), handle m with
  | connecting, Some _ =>
      ({| store := {| status := live; sourceUrl := sourceUrl (store m);
                      startedAt := Some t; lastError := lastError (store m) |};
          handle := handle m; next_pid := next_pid m; calls := calls m |},
       Noted)
  | _, _ => (m, Noted)
  end.

(** Modelled from the spec: the tracked subprocess exited on its own. *)
Definition process_exit (pid : nat) (m : Manager) : Manager * Outcome :=
  match handle m with
  | Some p =>
      if Nat.eqb p pid then
        ({| store := {| status := error; sourceUrl := sourceUrl (store m);
                        startedAt := startedAt (store m);
                        lastError := Some "the transcoder exited unexpectedly" |};
            handle := None; next_pid := next_pid m;
            calls := calls m ++ [Exited pid] |},
         Noted)
      else (m, Noted)
  | None => (m, Noted)
  end.

(** Modelled from the spec: lifecycle calls are serialized, one at a time. *)
Definition step (e : Event) (m : Manager) : Manager * Outcome :=
  match e with
  | Start url spawn_ok graceful => start url spawn_ok graceful m
  | Stop graceful => stop graceful m
  | Ready t => ready t m
  | ProcessExit pid => process_exit pid m
  end.

(** Modelled from the spec: a sequence of lifecycle calls and events. *)
Definition run (es : list Event) (m : Manager) : Manager :=
  fold_left (fun acc e => fst (step e acc)) es m.

(** Modelled from the spec: stream state is rebuilt from [idle] on every
    process start. *)
Definition boot : Manager :=
  {| store := {| status := idle; sourceUrl := None; startedAt := None;
                 lastError := None |};
     handle := None; next_pid := 1; calls := [] |}.

End Manager.

Example start_then_start :
  calls (run 2048 [Start "rtsp://a/1" true true; Ready 5;
                   Start "rtsp://b/2" true false] boot)
  = [Spawn 1 "rtsp://a/1"; Terminate 1; ForceKill 1; Wait 1; Spawn 2 "rtsp://b/2"].
Proof. reflexivity. Qed.

Example start_malformed :
  step 2048 (Start "rtsp://a/1;reboot" true true) boot = (boot, Rejected).
Proof. reflexivity. Qed.

(** *** One subprocess at a time *)

Section OneProcess.
Variable cap : nat.

Local Abbreviation alive m := (Ledger.live_after kind (calls m)).

(** The handle tracks exactly the live process. *)
Record Inv (m : Manager) : Prop := {
  inv_layered : Ledger.never_layered kind (calls m);
  inv_born : Ledger.born_alone kind (calls m);
  inv_handle : match handle m with
               | Some pid => alive m = [pid]
               | None => alive m = []
               end
}.

Lemma alive_app m acts :
  Ledger.live_after kind (calls m ++ acts) = Ledger.replay kind acts (alive m).
Proof. unfold Ledger.live_after. apply Ledger.replay_app. Qed.

(** Extending the record by calls that pass the check from the live set. *)
Lemma Inv_extend m m' acts :
  Inv m -> calls m' = calls m ++ acts ->
  Ledger.bounded kind (alive m) acts = true ->
  match handle m' with
  | Some pid => Ledger.replay kind acts (alive m) = [pid]
  | None => Ledger.replay kind acts (alive m) = []
  end ->
  Inv m'.
Proof.
  intros HI Hc Hb Hh. destruct HI. constructor.
  - rewrite Hc. now apply Ledger.never_layered_app.
  - rewrite Hc. now apply Ledger.born_alone_app.
  - rewrite Hc, alive_app. exact Hh.
Qed.

Lemma bounded_release (graceful : bool) (pid : nat) :
  Ledger.bounded kind [pid]
    ([Terminate pid] ++ (if graceful then [] else [ForceKill pid]) ++ [Wait pid])
  = true
  /\ Ledger.replay kind
       ([Terminate pid] ++ (if graceful then [] else [ForceKill pid]) ++ [Wait pid])
       [pid] = [].
Proof.
  destruct graceful; simpl; destruct (Nat.eq_dec pid pid); auto; contradiction.
Qed.

Lemma Inv_release graceful m :
  Inv m -> Inv (release graceful m) /\ alive (release graceful m) = []
           /\ handle (release graceful m) = None.
Proof.
  intros HI. unfold release. pose proof (inv_handle m HI) as Hh.
  destruct (handle m) as [pid|] eqn:Hm.
  - destruct (bounded_release graceful pid) as (Hb & Hr).
    assert (HI' : Inv (terminate_and_reap graceful pid m)).
    { eapply Inv_extend; [exact HI | reflexivity | now rewrite Hh |].
      cbn [handle terminate_and_reap]. now rewrite Hh. }
    split; [exact HI'|]. split; [|reflexivity].
    apply (inv_handle _ HI').
  - rewrite Hm. auto.
Qed.

Lemma manager_inv_step e m : Inv m -> Inv (fst (step cap e m)).
Proof.
  intros HI. destruct e as [url spawn_ok graceful | graceful | t | pid]; simpl.
  - unfold start. destruct (negb (RtspInput.spec_valid_source cap url)); [exact HI|].
    destruct (Inv_release graceful m HI) as (HR & Hl & Hh).
    destruct spawn_ok; cbn [fst].
    + eapply Inv_extend; [exact HR | reflexivity | now rewrite Hl |].
      cbn [handle]. now rewrite Hl.
    + destruct HR. constructor; trivial; cbn; exact Hl.
  - unfold stop. pose proof (Inv_release graceful m HI) as (HR & Hl & Hh).
    unfold release in HR, Hl. destruct (handle m) as [pid|]; [|exact HI].
    cbn [fst]. destruct HR. constructor; trivial.
  - unfold ready. destruct (status (store m)); try exact HI.
    destruct (handle m) eqn:Hm; [|exact HI]. cbn [fst].
    pose proof (inv_handle m HI) as Hh. rewrite Hm in Hh.
    destruct HI. constructor; trivial; cbn; exact Hh.
  - unfold process_exit. pose proof (inv_handle m HI) as Hh.
    destruct (handle m) as [p|] eqn:Hm; [|exact HI].
    destruct (Nat.eqb_spec p pid) as [->|Hne]; [|exact HI]. cbn [fst].
    eapply Inv_extend; [exact HI | reflexivity | |]; rewrite Hh; simpl;
      destruct (Nat.eq_dec pid pid); auto; contradiction.
Qed.

Lemma Inv_boot : Inv boot.
Proof.
  constructor; simpl.
  - apply Ledger.never_layered_nil.
  - apply Ledger.born_alone_nil.
  - reflexivity.
Qed.

Lemma manager_inv_run es : forall m, Inv m -> Inv (run cap es m).
Proof.
  induction es as [|e es IH]; intros m HI; [exact HI|].
  simpl. apply IH. now apply manager_inv_step.
Qed.

(** C8.  For every sequence of [start], [stop], readiness and exit events,
    whatever the environment answers: at every instant of the record of
    subprocess calls at most one process is alive, and each spawn is made at
    an instant when none is, the tracked handle having been terminated and
    waited on first. *)
Theorem single_active_subprocess :
  forall (es : list Event),
    Ledger.never_layered kind (calls (run cap es boot))
    /\ Ledger.born_alone kind (calls (run cap es boot)).
Proof.
  intros es. destruct (manager_inv_run es boot Inv_boot). auto.
Qed.

(** A valid [start] over a live handle: terminate, wait, then spawn. *)
Lemma start_replaces url graceful m pid :
  RtspInput.spec_valid_source cap url = true -> handle m = Some pid ->
  calls (fst (start cap url true graceful m))
  = calls m ++ [Terminate pid] ++ (if graceful then [] else [ForceKill pid])
    ++ [Wait pid; Spawn (next_pid m) url].
Proof.
  intros Hv Hh. unfold start, release. rewrite Hv, Hh. cbn.
  destruct graceful; cbn; rewrite <- !app_assoc; reflexivity.
Qed.

End OneProcess.

End Lifecycle.

(* ===================================================================== *)
(** ** features/overlays/components/overlay-controls.tsx *)
(* ===================================================================== *)

Module OverlayControls.
Open Scope Z_scope.
Open Scope list_scope.

Inductive OverlayType := text | image.

(** The fields of [Overlay] the side panel reads. *)
Record Overlay := {
  _id : string;
  type : OverlayType;
  content : string;
  imageUrl : option string;
  width : Z;
  height : Z
}.

Record CreateOverlayDto := {
  dto_type : OverlayType;
  dto_content : string;
  dto_x : Z;
  dto_y : Z;
  dto_width : Z;
  dto_height : Z
}.

(** [DEFAULT_OVERLAY_DIMENSIONS] spread into the DTO. *)
Definition with_default_dimensions (ty : OverlayType) (c : string)
  : CreateOverlayDto :=
  {| dto_type := ty; dto_content := c;
     dto_x := 50; dto_y := 50; dto_width := 200; dto_height := 100 |}.

Record Props := {
  overlays : list Overlay;
  selectedId : option string;
  isCreating : bool
}.

Record State := {
  newType : OverlayType;
  newContent : string;
  editContent : string;
  editImageUrl : string
}.

Definition initial : State :=
  {| newType := text; newContent := ""; editContent := ""; editImageUrl := "" |}.

(** The one field an edit sends. *)
Inductive Patch :=
| PatchImageUrl (imageUrl : string)
| PatchContent (content : string).

(** Calls of the callback props. *)
Inductive Call :=
| OnCreate (dto : CreateOverlayDto)
| OnUpdate (id : string) (patch : Patch)
| OnDelete (id : string)
| StopPropagation.

(** [overlays.find((o) => o._id === selectedId)] *)
Definition selectedOverlay (p : Props) : option Overlay :=
  match selectedId p with
  | Some id => find (fun o => String.eqb (_id o) id) (overlays p)
  | None => None
  end.

(** The effect that copies the selection into the edit fields;
    [imageUrl || ''] turns a missing URL into the empty string. *)
Definition sync (p : Props) (st : State) : State :=
  match selectedOverlay p with
  | Some o =>
      {| newType := newType st; newContent := newContent st;
         editContent := content o;
         editImageUrl := match imageUrl o with
                         | Some u => u
                         | None => ""
                         end |}
  | None => st
  end.

Definition handleCreate (st : State) : State * list Call :=
  if String.eqb (newContent st) "" then (st, [])
  else
    ({| newType := newType st; newContent := "";
        editContent := editContent st; editImageUrl := editImageUrl st |},
     [OnCreate (with_default_dimensions (newType st) (newContent st))]).

(** [editImageUrl !== selectedOverlay.imageUrl]: a string never equals
    [undefined]. *)
Definition differs (edit : string) (stored : option string) : bool :=
  match stored with
  | Some u => negb (String.eqb edit u)
  | None => true
  end.

Definition handleSaveEdit (p : Props) (st : State) : list Call :=
  match selectedOverlay p with
  | None => []
  | Some o =>
      match type o with
      | image =>
          if differs (editImageUrl st) (imageUrl o)
          then [OnUpdate (_id o) (PatchImageUrl (editImageUrl st))]
          else []
      | text =>
          if negb (String.eqb (editContent st) (content o))
          then [OnUpdate (_id o) (PatchContent (editContent st))]
          else []
      end
  end.

Definition handleDeleteClick (id : string) : list Call :=
  [StopPropagation; OnDelete id].

Definition logo : Overlay :=
  {| _id := "65a5"; type := image; content := "https://example.com/logo.png";
     imageUrl := None; width := 200; height := 100 |}.

Example save_untouched_image :
  handleSaveEdit {| overlays := [logo]; selectedId := Some "65a5"; isCreating := false |}
    (sync {| overlays := [logo]; selectedId := Some "65a5"; isCreating := false |}
       initial)
  = [OnUpdate "65a5" (PatchImageUrl "")].
Proof. reflexivity. Qed.

(** *** Properties of the side panel *)

(** X17.  Creating clears the input, so a second click right after
    creates nothing: of two [handleCreate] calls in a row the first sends one
    overlay with the chosen type, the typed content and the default box
    (200 by 100 at 50, 50) when the content is not empty and nothing when it
    is, and the second sends nothing and changes nothing. *)
Theorem handleCreate_once :
  forall (st : State),
    snd (handleCreate st)
    = (if String.eqb (newContent st) "" then []
       else [OnCreate {| dto_type := newType st; dto_content := newContent st;
                         dto_x := 50; dto_y := 50;
                         dto_width := 200; dto_height := 100 |}])
    /\ newContent (fst (handleCreate st)) = ""
    /\ handleCreate (fst (handleCreate st)) = (fst (handleCreate st), []).
Proof.
  intros st. unfold handleCreate.
  destruct (String.eqb (newContent st) "") eqn:He; cbn [fst snd newContent].
  - rewrite He. apply String.eqb_eq in He. auto.
  - auto.
Qed.

(** X18.  Saving right after the edit fields were synced to the selection
    sends no update, with one exception: for an image overlay that has no
    [imageUrl] the save sends [imageUrl: ''], because the empty edit field is
    compared with [undefined]. *)
Theorem save_after_sync :
  forall (p : Props) (st : State),
    handleSaveEdit p (sync p st)
    = match selectedOverlay p with
      | Some o =>
          match type o, imageUrl o with
          | image, None => [OnUpdate (_id o) (PatchImageUrl "")]
          | _, _ => []
          end
      | None => []
      end.
Proof.
  intros p st. unfold handleSaveEdit, sync.
  destruct (selectedOverlay p) as [o|]; [|reflexivity].
  cbn [editContent editImageUrl]. unfold differs.
  destruct (type o), (imageUrl o) as [u|]; rewrite ?String.eqb_refl; reflexivity.
Qed.

Lemma find_by_id id l o :
  find (fun o => String.eqb (_id o) id) l = Some o -> In o l /\ _id o = id.
Proof.
  intros H. apply find_some in H as [Hin Heq]. apply String.eqb_eq in Heq. auto.
Qed.

(** X19.  A save only ever addresses the selected overlay, which is one of
    the listed overlays, and sends the one field that belongs to its type
    with the value of the edit field: [imageUrl] for an image, [content] for
    a text.  Without a selection, or with a selection that is not listed, it
    sends nothing. *)
Theorem handleSaveEdit_targets_selection :
  forall (p : Props) (st : State) (call : Call),
    In call (handleSaveEdit p st) ->
    exists o,
      In o (overlays p)
      /\ selectedId p = Some (_id o)
      /\ call = OnUpdate (_id o)
                  match type o with
                  | image => PatchImageUrl (editImageUrl st)
                  | text => PatchContent (editContent st)
                  end.
Proof.
  intros p st call Hin. unfold handleSaveEdit in Hin.
  destruct (selectedOverlay p) as [o|] eqn:Hsel; [|destruct Hin].
  unfold selectedOverlay in Hsel.
  destruct (selectedId p) as [id|] eqn:Hid; [|discriminate].
  apply find_by_id in Hsel as [Ho Hoid]. exists o. subst id.
  split; [exact Ho|]. split; [reflexivity|].
  destruct (type o).
  - destruct (negb (String.eqb (editContent st) (content o)));
      [destruct Hin as [<- | []]; reflexivity | destruct Hin].
  - destruct (differs (editImageUrl st) (imageUrl o));
      [destruct Hin as [<- | []]; reflexivity | destruct Hin].
Qed.

Lemma handleSaveEdit_targets_selection_witness :
  exists o,
    In o [logo]
    /\ Some "65a5" = Some (_id o)
    /\ OnUpdate "65a5" (PatchImageUrl "https://example.com/new.png")
       = OnUpdate (_id o)
           match type o with
           | image => PatchImageUrl "https://example.com/new.png"
           | text => PatchContent ""
           end.
Proof.
  exact (handleSaveEdit_targets_selection
           {| overlays := [logo]; selectedId := Some "65a5"; isCreating := false |}
           {| newType := text; newContent := ""; editContent := "";
              editImageUrl := "https://example.com/new.png" |}
           (OnUpdate "65a5" (PatchImageUrl "https://example.com/new.png"))
           (or_introl eq_refl)).
Defined.

End OverlayControls.

(* ===================================================================== *)
(** ** routes/_index.tsx: which of the input and the player is shown *)
(* ===================================================================== *)

Module IndexPage.
Import RtspInput.
Open Scope list_scope.

(** [streamUrl ? <VideoPlayer src={streamUrl} /> : <RtspInput ... />] *)
Definition shows_player (v : View) : bool :=
  match page_streamUrl v with
  | Some s => negb (String.eqb s "")
  | None => false
  end.

(** What the user can do with the form; [connectStream] is the server's
    answer to the submit. *)
Inductive Event :=
| TypeUrl (s : string)
| SubmitForm (connectStream : string -> Settled).

(** The form exists, and handles events, only while the player is not
    shown. *)
Definition step (e : Event) (v : View) : View :=
  if shows_player v then v
  else
    match e with
    | TypeUrl s =>
        {| form_url := s; isLoading := isLoading v;
           page_streamUrl := page_streamUrl v |}
    | SubmitForm connectStream => fst (handleSubmit connectStream v)
    end.

Definition run (es : list Event) (v : View) : View :=
  fold_left (fun acc e => step e acc) es v.

(** [useState<string | null>(null)] and [useState('')]. *)
Definition initial : View :=
  {| form_url := ""; isLoading := false; page_streamUrl := None |}.

(** What the field of the form holds after the events [es]: the address
    typed last ([onChange={(e) => setUrl(e.target.value)}]). *)
Definition typed (es : list Event) : string :=
  fold_left (fun u e => match e with
                        | TypeUrl s => s
                        | SubmitForm _ => u
                        end) es "".

(** The stream URL [s] is the server's answer to a submit of the history,
    made with the address that was in the field at that moment. *)
Definition provenance (history : list Event) (s : string) : Prop :=
  exists before connectStream after response,
    history = before ++ SubmitForm connectStream :: after
    /\ form_url (run before initial) = typed before
    /\ isValidRtspUrl (typed before) = true
    /\ connectStream (typed before) = Resolved response
    /\ streamUrl response = s.

Lemma provenance_more history e s :
  provenance history s -> provenance (history ++ [e]) s.
Proof.
  intros (before & c & after & r & Heq & Hrest).
  exists before, c, (after ++ [e]), r. split; [|exact Hrest].
  rewrite Heq, <- app_assoc. reflexivity.
Qed.

Lemma run_snoc es e v : run (es ++ [e]) v = step e (run es v).
Proof. unfold run. now rewrite fold_left_app. Qed.

Lemma typed_snoc es e :
  typed (es ++ [e]) = match e with
                      | TypeUrl s => s
                      | SubmitForm _ => typed es
                      end.
Proof. unfold typed. now rewrite fold_left_app. Qed.

(** While the form is shown its field holds the address typed last, and a
    stream URL that is set has its provenance. *)
Lemma page_inv es :
  (shows_player (run es initial) = false ->
   form_url (run es initial) = typed es)
  /\ (forall s, page_streamUrl (run es initial) = Some s -> provenance es s).
Proof.
  induction es as [|e es [IHfield IHprov]] using rev_ind.
  - split; [reflexivity | discriminate].
  - rewrite run_snoc, typed_snoc. set (v := run es initial) in *.
    unfold step. destruct (shows_player v) eqn:Hshown.
    + split; [intros H; congruence|].
      intros s Hs. now apply provenance_more, IHprov.
    + specialize (IHfield eq_refl). destruct e as [s0 | connectStream].
      * split; [reflexivity|].
        intros s Hs. now apply provenance_more, IHprov.
      * unfold handleSubmit.
        destruct (String.eqb (form_url v) "");
          [split; [auto | intros s Hs; now apply provenance_more, IHprov]|].
        destruct (isValidRtspUrl (form_url v)) eqn:Hv; cbn [negb];
          [|split; [auto | intros s Hs; now apply provenance_more, IHprov]].
        destruct (connectStream (form_url v)) as [response|error] eqn:Hc;
          cbn [fst form_url page_streamUrl].
        -- split; [auto|]. intros s [= <-].
           exists es, connectStream, [], response.
           rewrite <- IHfield. fold v. auto.
        -- split; [auto | intros s Hs; now apply provenance_more, IHprov].
Qed.

(** X20.  The player only ever plays what the server returned for the
    address the user submitted: in every run of the page, a stream URL that
    is set is the [streamUrl] of the response that resolved one of the
    submits, and the address sent with that submit is the one typed last
    before it, which starts with [rtsp://]. *)
Theorem stream_url_from_submitted_address :
  forall (es : list Event) (s : string),
    page_streamUrl (run es initial) = Some s ->
    exists before connectStream after response,
      es = before ++ SubmitForm connectStream :: after
      /\ form_url (run before initial) = typed before
      /\ isValidRtspUrl (typed before) = true
      /\ connectStream (typed before) = Resolved response
      /\ streamUrl response = s.
Proof.
  intros es s Hs. exact (proj2 (page_inv es) s Hs).
Qed.

Lemma stream_url_from_submitted_address_witness :
  exists before connectStream after response,
    [TypeUrl "rtsp://old"; TypeUrl "rtsp://cam/live"; SubmitForm accepting_server]
    = before ++ SubmitForm connectStream :: after
    /\ form_url (run before initial) = typed before
    /\ isValidRtspUrl (typed before) = true
    /\ connectStream (typed before) = Resolved response
    /\ streamUrl response = "http://localhost:5000/stream/index.m3u8".
Proof.
  exact (stream_url_from_submitted_address
           [TypeUrl "rtsp://old"; TypeUrl "rtsp://cam/live";
            SubmitForm accepting_server]
           "http://localhost:5000/stream/index.m3u8" eq_refl).
Defined.

(** A submit of an address the field no longer holds sends nothing of it:
    the request carries the address typed last. *)
Example submit_sends_last_typed :
  snd (handleSubmit accepting_server
         (run [TypeUrl "rtsp://old"; TypeUrl "rtsp://cam/live"] initial))
  = [PreventDefault; PostConnect "rtsp://cam/live";
     Toasted (Errors.ToastSuccess "Stream started successfully")].
Proof. reflexivity. Qed.

End IndexPage.
